(** * getfTDDfeat_v2: a fusion of time-domain descriptors

    A shallow embedding of [getfTDDfeat_v2.py]: the moment extractor [KSM1]
    and the sliding-window driver [getfTDDfeat_v2], with the NumPy operations
    they call, followed by the properties of the two functions.

    Conventions.
    - A 2-D [ndarray] is a column count together with the list of its rows;
      NumPy arrays are rectangular, which is the predicate [rect].
    - Python [int]s are [Z]; lengths and loop indices are [nat].
    - float64 arithmetic is an interface ([Float64]); the shape and indexing
      results hold for every implementation of it.  The results that depend
      on values use the instance [xreal]: exact real arithmetic extended with
      the IEEE-754 special values, so that NaN and the infinities propagate
      as they do in NumPy, while rounding, overflow and the sign of zero are
      left out.
    - A Python exception is a value of [exn]; code that can raise returns a
      [result]. *)

From Stdlib Require Import ZArith Reals Lra Lia.
From stdpp Require Import base decidable option numbers list.

Set Default Proof Using "Type".

(** ** Exceptions *)

Inductive exn : Type :=
| ZeroDivisionError
| ValueError
| IndexError.

Inductive result (A : Type) : Type :=
| Ok (a : A)
| Raise (e : exn).
Arguments Ok {A} a.
Arguments Raise {A} e.

#[global] Instance result_ret : MRet result := fun A a => Ok a.
#[global] Instance result_bind : MBind result := fun A B k c =>
  match c with
  | Ok a => k a
  | Raise e => Raise e
  end.

(** ** The float64 operations the program uses *)

Class Float64 (F : Type) : Type := {
  of_int : Z -> F;          (* conversion of a Python int *)
  tenth : F;                (* the literal .1 *)
  spacing1 : F;             (* np.spacing(1) *)
  fadd : F -> F -> F;
  fsub : F -> F -> F;
  fmul : F -> F -> F;
  fdiv : F -> F -> F;
  fpow : F -> F -> F;       (* a ** b *)
  fsqrt : F -> F;
  fabs : F -> F;
  flog : F -> F
}.

(** ** Arrays *)

Record array2 (F : Type) : Type := Array2 {
  ncols : nat;
  rows : list (list F)
}.
Arguments Array2 {F} ncols rows.
Arguments ncols {F} a.
Arguments rows {F} a.

(** What the caller may pass as [x]. *)
Inductive ndarray (F : Type) : Type :=
| Arr1 (v : list F)
| Arr2 (m : array2 F).
Arguments Arr1 {F} v.
Arguments Arr2 {F} m.

Section Arrays.
Context {F : Type}.

Definition nrows (a : array2 F) : nat := length (rows a).

(** [a.shape] *)
Definition shape (a : array2 F) : nat * nat := (nrows a, ncols a).

(** Rows of [c] entries each. *)
Definition width (c : nat) (rs : list (list F)) : Prop :=
  Forall (fun r => length r = c) rs.

(** Every row has [ncols a] entries. *)
Definition rect (a : array2 F) : Prop := width (ncols a) (rows a).

(** An elementwise unary operation. *)
Definition amap (f : F -> F) (a : array2 F) : array2 F :=
  Array2 (ncols a) (fmap (fmap (M:=list) f) (rows a)).

(** The [c] columns of a list of rows of width [c]. *)
Definition columns_of (c : nat) (rs : list (list F)) : list (list F) :=
  foldr (zip_with cons) (replicate c []) rs.

(** The channels of [a], one list of samples each. *)
Definition columns (a : array2 F) : list (list F) :=
  columns_of (ncols a) (rows a).

(** [np.transpose(a)] *)
Definition np_transpose (a : array2 F) : array2 F :=
  Array2 (nrows a) (columns a).

(** [v[:, np.newaxis]] *)
Definition newaxis (v : list F) : array2 F :=
  Array2 1 (fmap (fun e => [e]) v).

(** A slice bound [k] of [l[a:b]] on a sequence of length [n]: a negative
    bound counts from the end, and the result is clamped to [0..n]. *)
Definition slice_bound (n : nat) (k : Z) : nat :=
  if decide (k < 0)%Z then Z.to_nat (Z.max (k + Z.of_nat n) 0)
  else Z.to_nat (Z.min k (Z.of_nat n)).

(** [l[a:b]] *)
Definition py_slice {A : Type} (a b : Z) (l : list A) : list A :=
  let lo := slice_bound (length l) a in
  let hi := slice_bound (length l) b in
  take (hi - lo) (drop lo l).

(** [x[a:b, :]] *)
Definition row_slice (a b : Z) (x : array2 F) : array2 F :=
  Array2 (ncols x) (py_slice a b (rows x)).

(** [np.concatenate([a, b], axis=0)]; both call sites pass arrays of
    [channels] columns. *)
Definition np_concatenate0 (a b : array2 F) : array2 F :=
  Array2 (ncols a) (rows a ++ rows b).

(** NumPy broadcasting of a binary operation on two 1-D arrays. *)
Definition broadcast2 (f : F -> F -> F) (a b : list F) : result (list F) :=
  if decide (length a = length b) then Ok (zip_with f a b)
  else match a, b with
       | [s], _ => Ok (fmap (f s) b)
       | _, [s] => Ok (fmap (fun e => f e s) a)
       | _, _ => Raise ValueError
       end.

(** [feat[i, :] = v] *)
Definition assign_row (feat : array2 F) (i : nat) (v : list F) : result (array2 F) :=
  if decide (nrows feat <= i) then Raise IndexError
  else if decide (length v = ncols feat)
       then Ok (Array2 (ncols feat) (<[i := v]> (rows feat)))
  else match v with
       | [s] => Ok (Array2 (ncols feat) (<[i := replicate (ncols feat) s]> (rows feat)))
       | _ => Raise ValueError
       end.
End Arrays.

Section Program.
Context {F : Type} `{Float64 F}.

(** [np.zeros((r, c))] *)
Definition np_zeros (r c : nat) : array2 F :=
  Array2 c (replicate r (replicate c (of_int 0))).

(** [a ** 2] on a float array is the product of [a] with itself. *)
Definition fsq (v : F) : F := fmul v v.

(** [np.sum(a, axis=0)]: the rows are accumulated one after the other. *)
Definition np_sum0 (a : array2 F) : list F :=
  foldl (zip_with fadd) (replicate (ncols a) (of_int 0)) (rows a).

(** [np.diff(a, n=1, axis=0)], that is [a[1:] - a[:-1]]. *)
Definition np_diff0 (a : array2 F) : array2 F :=
  Array2 (ncols a)
    (zip_with (zip_with fsub) (drop 1 (rows a)) (take (nrows a - 1) (rows a))).

(** *** KSM1 *)

(** Lines 124-128: the transpose guard, [if channels > samples]. *)
Definition orient (S : array2 F) : array2 F :=
  let '(samples, channels) := shape S in
  if decide (samples < channels) then np_transpose S else S.

(** [m ** .1 / .1] *)
Definition normalise (m : list F) : list F :=
  fmap (fun v => fdiv (fpow v tenth) tenth) m.

(** Line 131: [np.sqrt(np.sum(S**2, axis=0))]. *)
Definition m0_root (S : array2 F) : list F :=
  fmap fsqrt (np_sum0 (amap fsq S)).

(** Lines 135 and 136: the right-hand side, for [d1] from [S] and for [d2]
    from [d1]. *)
Definition deriv (channels : nat) (a : array2 F) : array2 F :=
  np_diff0 (np_concatenate0 (np_zeros 1 channels) (np_diff0 a)).

(** Lines 139-140 and 142-143. *)
Definition moment_hi (samples : nat) (d : array2 F) : list F :=
  normalise
    (fmap fsqrt
       (fmap (fun v => fdiv v (of_int (Z.of_nat samples - 1))) (np_sum0 (amap fsq d)))).

(** The local variables of [KSM1] when line 155 is reached. *)
Record locals : Type := Locals {
  l_S : array2 F;
  l_samples : nat;
  l_channels : nat;
  l_m0 : list F;
  l_d1 : array2 F;
  l_d2 : array2 F;
  l_m2 : list F;
  l_m4 : list F;
  l_sparsi : list F;
  l_IRF : list F;
  l_WLR : list F
}.

Definition KSM1_locals (S0 : array2 F) : locals :=
  let S := orient S0 in
  let '(samples, channels) := shape S in
  let m0 := normalise (m0_root S) in
  let d1 := deriv channels S in
  let d2 := deriv channels d1 in
  let m2 := moment_hi samples d1 in
  let m4 := moment_hi samples d2 in
  let sparsi :=
    zip_with fdiv m0
      (fmap fsqrt (fmap fabs (zip_with fmul (zip_with fsub m0 m2) (zip_with fsub m0 m4)))) in
  let IRF := zip_with fdiv m2 (fmap fsqrt (zip_with fmul m0 m4)) in
  let WLR := zip_with fdiv (np_sum0 (amap fabs d1)) (np_sum0 (amap fabs d2)) in
  Locals S samples channels m0 d1 d2 m2 m4 sparsi IRF WLR.

(** [np.log(np.abs(v))] *)
Definition logabs (v : F) : F := flog (fabs v).

(** Lines 155-158. *)
Definition KSM1 (S0 : array2 F) : list F :=
  let L := KSM1_locals S0 in
  let Feat :=
    l_m0 L ++ zip_with fsub (l_m0 L) (l_m2 L) ++ zip_with fsub (l_m0 L) (l_m4 L)
      ++ l_sparsi L ++ l_IRF L ++ l_WLR L in
  fmap logabs Feat.

(** *** getfTDDfeat_v2 *)

(** [np.log(w**2 + np.spacing(1))**2] *)
Definition nonlinear (w : array2 F) : array2 F :=
  amap (fun v => fsq (flog (fadd (fsq v) spacing1))) w.

(** "steps2: Correlation analysis": the pair [(num, den)] of lines 79-80 and
    87-88. *)
Definition correlation (ebp efp : list F) : result (list F * list F) :=
  p ← broadcast2 fmul ebp efp;
  let num := fmap (M:=list) (fmul (of_int (-2))) p in
  ee ← broadcast2 fmul efp efp;
  bb ← broadcast2 fmul ebp ebp;
  den ← broadcast2 fadd ee bb;
  mret (num, den).

(** The variables the loop updates. *)
Record state : Type := State {
  st : Z;
  en : Z;
  feat : array2 F
}.

(** Lines 101-102. *)
Definition advance (wininc : Z) (b : Z * Z) : Z * Z :=
  (b.1 + wininc, b.2 + wininc)%Z.

(** Lines 72-102: one pass through the loop body, at index [i]. *)
Definition body (x : array2 F) (steps wininc : Z) (i : nat) (s : state) : result state :=
  let curwin := row_slice (st s) (en s) x in
  let lagwin := row_slice (st s - steps * wininc) (en s - steps * wininc) x in
  '(num, den) ← correlation (KSM1 lagwin) (KSM1 (nonlinear lagwin));
  '(num2, den2) ← correlation (KSM1 curwin) (KSM1 (nonlinear curwin));
  a ← broadcast2 fsub num den;
  b ← broadcast2 fsub num2 den2;
  v ← broadcast2 fmul a b;
  feat' ← assign_row (feat s) i v;
  let '(st', en') := advance wininc (st s, en s) in
  mret (State st' en' feat').

(** [for i in idx: body] *)
Fixpoint for_each (f : nat -> state -> result state) (idx : list nat) (s : state)
  : result state :=
  match idx with
  | [] => Ok s
  | i :: idx' => s' ← f i s; for_each f idx' s'
  end.

(** [range(n)] for an int [n] *)
Definition range (n : Z) : list nat := seq 0 (Z.to_nat n).

(** Line 58; [np.int] is the builtin [int], and the quotient of two array
    sizes is far below 2^53, where the float division followed by
    [np.floor] is the floor division. *)
Definition numwin_of (datasize : nat) (winsize wininc : Z) : Z :=
  ((Z.of_nat datasize - winsize) / wininc + 1)%Z.

(** Lines 67-68. *)
Definition initial (steps winsize wininc : Z) (f : array2 F) : state :=
  State (0 + steps * wininc) (winsize + steps * wininc) f.

(** The values of [(st, en)] when the body is entered for the index [i]. *)
Definition bounds_at (steps winsize wininc : Z) (i : nat) : Z * Z :=
  Nat.iter i (advance wininc) (0 + steps * wininc, winsize + steps * wininc)%Z.

(** Lines 53-54. *)
Definition as_columns (x : ndarray F) : array2 F :=
  match x with
  | Arr1 v => newaxis v
  | Arr2 m => m
  end.

Definition getfTDDfeat_v2 (x : ndarray F) (steps winsize wininc : Z)
  : result (array2 F) :=
  let x := as_columns x in
  let datasize := nrows x in
  let Nsignals := ncols x in
  if decide (wininc = 0%Z) then Raise ZeroDivisionError else
  let numwin := numwin_of datasize winsize wininc in
  let NFPC := 6 in
  if decide (numwin - steps < 0)%Z then Raise ValueError else
  let feat0 := np_zeros (Z.to_nat (numwin - steps)) (Nsignals * NFPC) in
  s ← for_each (body x steps wininc) (range (numwin - steps))
        (initial steps winsize wininc feat0);
  mret (feat s).

(** *** The quantities of the specification *)

(** One channel, as a list of samples. *)
Definition chan_sum (c : list F) : F := foldl fadd (of_int 0) c.
Definition chan_diff (c : list F) : list F :=
  zip_with fsub (drop 1 c) (take (length c - 1) c).
Definition chan_deriv (c : list F) : list F := chan_diff (of_int 0 :: chan_diff c).
Definition chan_norm (v : F) : F := fdiv (fpow v tenth) tenth.
Definition chan_m0 (c : list F) : F := chan_norm (fsqrt (chan_sum (fmap fsq c))).
Definition chan_mhi (samples : nat) (d : list F) : F :=
  chan_norm (fsqrt (fdiv (chan_sum (fmap fsq d)) (of_int (Z.of_nat samples - 1)))).
Definition chan_m2 (c : list F) : F := chan_mhi (length c) (chan_deriv c).
Definition chan_m4 (c : list F) : F := chan_mhi (length c) (chan_deriv (chan_deriv c)).
Definition chan_sparseness (c : list F) : F :=
  fdiv (chan_m0 c)
    (fsqrt (fabs (fmul (fsub (chan_m0 c) (chan_m2 c)) (fsub (chan_m0 c) (chan_m4 c))))).
Definition chan_IRF (c : list F) : F :=
  fdiv (chan_m2 c) (fsqrt (fmul (chan_m0 c) (chan_m4 c))).
Definition chan_WLR (c : list F) : F :=
  fdiv (chan_sum (fmap fabs (chan_deriv c)))
    (chan_sum (fmap fabs (chan_deriv (chan_deriv c)))).

(** The six quantities in the order of the stack. *)
Definition chan_quantities : list (list F -> F) :=
  [chan_m0;
   fun c => fsub (chan_m0 c) (chan_m2 c);
   fun c => fsub (chan_m0 c) (chan_m4 c);
   chan_sparseness; chan_IRF; chan_WLR].

(** [num], [den] and the fused row of a pair of windows, entry by entry. *)
Definition num_of (w : array2 F) : list F :=
  zip_with (fun b f => fmul (of_int (-2)) (fmul b f)) (KSM1 w) (KSM1 (nonlinear w)).
Definition den_of (w : array2 F) : list F :=
  zip_with (fun b f => fadd (fmul f f) (fmul b b)) (KSM1 w) (KSM1 (nonlinear w)).
Definition fused (lagwin curwin : array2 F) : list F :=
  zip_with fmul (zip_with fsub (num_of lagwin) (den_of lagwin))
    (zip_with fsub (num_of curwin) (den_of curwin)).

(** The row of the window index [i]: the lagged window is [x[i*wininc :
    i*wininc+winsize]] and the current one lies [steps] strides later. *)
Definition fused_row (x : array2 F) (steps winsize wininc : Z) (i : nat) : list F :=
  fused (row_slice (Z.of_nat i * wininc) (Z.of_nat i * wininc + winsize) x)
    (row_slice ((Z.of_nat i + steps) * wininc)
       ((Z.of_nat i + steps) * wininc + winsize) x).
End Program.
Arguments state F : clear implicits.
Arguments locals F : clear implicits.

(** ** The extended reals

    A float64 is a finite real, an infinity or NaN.  Finite arithmetic is
    exact; the special cases follow IEEE 754 and C99 [pow], with one zero.
    Rounding, overflow and underflow of finite results are not modelled: a
    statement about values holds in exact real arithmetic, and where the
    magnitudes decide the outcome it bounds them. *)

Inductive xreal : Type :=
| Fin (r : R)
| PInf
| NInf
| NaN.

Module XReal.
Local Open Scope R_scope.

Definition sign (r : R) : comparison :=
  match total_order_T r 0 with
  | inleft (left _) => Lt
  | inleft (right _) => Eq
  | inright _ => Gt
  end.

Definition xsign (x : xreal) : comparison :=
  match x with
  | Fin r => sign r
  | PInf => Gt
  | NInf => Lt
  | NaN => Eq
  end.

(** The infinity of a given sign; the sign [Eq] stands for an invalid
    operation. *)
Definition inf_of (s : comparison) : xreal :=
  match s with
  | Lt => NInf
  | Eq => NaN
  | Gt => PInf
  end.

Definition sign_mul (s t : comparison) : comparison :=
  match s, t with
  | Eq, _ | _, Eq => Eq
  | Lt, Lt | Gt, Gt => Gt
  | Lt, Gt | Gt, Lt => Lt
  end.

Definition xneg (x : xreal) : xreal :=
  match x with
  | Fin r => Fin (- r)
  | PInf => NInf
  | NInf => PInf
  | NaN => NaN
  end.

Definition xadd (x y : xreal) : xreal :=
  match x, y with
  | NaN, _ | _, NaN => NaN
  | Fin a, Fin b => Fin (a + b)
  | PInf, NInf | NInf, PInf => NaN
  | PInf, _ | _, PInf => PInf
  | NInf, _ | _, NInf => NInf
  end.

Definition xsub (x y : xreal) : xreal := xadd x (xneg y).

Definition xmul (x y : xreal) : xreal :=
  match x, y with
  | NaN, _ | _, NaN => NaN
  | Fin a, Fin b => Fin (a * b)
  | _, _ => inf_of (sign_mul (xsign x) (xsign y))
  end.

Definition xdiv (x y : xreal) : xreal :=
  match x, y with
  | NaN, _ | _, NaN => NaN
  | Fin a, Fin b =>
      match sign b with
      | Eq => inf_of (sign a)
      | _ => Fin (a / b)
      end
  | Fin _, _ => Fin 0
  | _, Fin b =>
      match sign b with
      | Eq => x
      | s => inf_of (sign_mul (xsign x) s)
      end
  | _, _ => NaN
  end.

Definition xsqrt (x : xreal) : xreal :=
  match x with
  | Fin a => match sign a with Lt => NaN | _ => Fin (sqrt a) end
  | PInf => PInf
  | NInf | NaN => NaN
  end.

Definition xabs (x : xreal) : xreal :=
  match x with
  | Fin a => Fin (Rabs a)
  | PInf | NInf => PInf
  | NaN => NaN
  end.

Definition xlog (x : xreal) : xreal :=
  match x with
  | Fin a =>
      match sign a with
      | Lt => NaN
      | Eq => NInf
      | Gt => Fin (ln a)
      end
  | PInf => PInf
  | NInf | NaN => NaN
  end.

(** Whether a real is an integer, and then whether it is odd. *)
Definition integral (b : R) : bool :=
  if Req_EM_T (IZR (Int_part b)) b then true else false.
Definition odd_integral (b : R) : bool :=
  integral b && Z.odd (Int_part b).

(** [x ** y] for a finite, non-zero exponent. *)
Definition xpow_finite (x : xreal) (b : R) : xreal :=
  match x with
  | NaN => NaN
  | Fin a =>
      match sign a with
      | Gt => Fin (Rpower a b)
      | Eq => match sign b with Lt => PInf | _ => Fin 0 end
      | Lt =>
          if integral b
          then Fin ((if odd_integral b then -1 else 1) * Rpower (- a) b)
          else NaN
      end
  | PInf => match sign b with Lt => Fin 0 | _ => PInf end
  | NInf =>
      match sign b with
      | Lt => Fin 0
      | _ => if odd_integral b then NInf else PInf
      end
  end.

(** [x ** y] for an infinite exponent; [pos] tells [+inf] from [-inf]. *)
Definition xpow_infinite (x : xreal) (pos : bool) : xreal :=
  match x with
  | NaN => NaN
  | Fin a =>
      match sign (Rabs a - 1) with
      | Eq => Fin 1
      | Lt => if pos then Fin 0 else PInf
      | Gt => if pos then PInf else Fin 0
      end
  | PInf | NInf => if pos then PInf else Fin 0
  end.

Definition is_one (x : xreal) : bool :=
  match x with
  | Fin a => if Req_EM_T a 1 then true else false
  | _ => false
  end.

Definition is_zero (x : xreal) : bool :=
  match x with
  | Fin a => if Req_EM_T a 0 then true else false
  | _ => false
  end.

Definition xpow (x y : xreal) : xreal :=
  if is_zero y || is_one x then Fin 1
  else match y with
       | NaN => NaN
       | Fin b => xpow_finite x b
       | PInf => xpow_infinite x true
       | NInf => xpow_infinite x false
       end.

(** The real numbers behind [m0] on a channel of finite samples. *)
Definition root_sum_sq (col : list R) : R :=
  sqrt (foldl (fun a v => a + v * v) 0 col).
Definition pow_tenth (r : R) : R :=
  if Req_EM_T r 0 then 0 else Rpower r (1 / 10).
Definition real_m0 (col : list R) : R := pow_tenth (root_sum_sq col) / (1 / 10).

(** The real numbers behind [d1], [d2], [m2], [m4] and the two sums of the
    waveform-length ratio on a channel of finite samples. *)
Definition rdiff (col : list R) : list R :=
  zip_with Rminus (drop 1 col) (take (length col - 1) col).
Definition rderiv (col : list R) : list R := rdiff (0 :: rdiff col).
Definition real_mhi (samples : nat) (d : list R) : R :=
  pow_tenth (sqrt (foldl (fun a v => a + v * v) 0 d / IZR (Z.of_nat samples - 1)))
  / (1 / 10).
Definition sum_abs (d : list R) : R := foldl (fun a v => a + Rabs v) 0 d.
End XReal.

#[global] Instance xreal_float64 : Float64 xreal := {|
  of_int := fun z => Fin (IZR z);
  tenth := Fin (1 / 10);
  spacing1 := Fin (/ 2 ^ 52);
  fadd := XReal.xadd;
  fsub := XReal.xsub;
  fmul := XReal.xmul;
  fdiv := XReal.xdiv;
  fpow := XReal.xpow;
  fsqrt := XReal.xsqrt;
  fabs := XReal.xabs;
  flog := XReal.xlog
|}.

(** The array of finite reals with the given rows. *)
Definition finite_array (c : nat) (rs : list (list R)) : array2 xreal :=
  Array2 c (fmap (fmap (M:=list) Fin) rs).

(** [k * S] for a float [k] *)
Definition scale (k : xreal) (S : array2 xreal) : array2 xreal :=
  amap (fmul k) S.

(** A window of [n] samples of one channel, all equal to [c]. *)
Definition constant_window (n : nat) (c : R) : array2 xreal :=
  Array2 1 (replicate n [Fin c]).

(** [-S] *)
Definition negate (S : array2 xreal) : array2 xreal :=
  amap XReal.xneg S.

(** [-x] for the input of the driver *)
Definition negate_input (x : ndarray xreal) : ndarray xreal :=
  match x with
  | Arr1 v => Arr1 (XReal.xneg <$> v)
  | Arr2 m => Arr2 (negate m)
  end.

(** * Properties *)

(** ** Rows and columns *)

Section ArrayFacts.
Context {F : Type}.
Implicit Types (rs : list (list F)) (c n : nat).

Lemma width_nil c : width c (@nil (list F)).
Proof. constructor. Qed.

Lemma width_cons c r rs : length r = c -> width c rs -> width c (r :: rs).
Proof. by constructor. Qed.

Lemma width_replicate c n (r : list F) : length r = c -> width c (replicate n r).
Proof. intros Hr. by apply Forall_replicate. Qed.

Lemma length_columns_of c rs : width c rs -> length (columns_of c rs) = c.
Proof.
  induction 1 as [|r rs Hr _ IH]; simpl.
  - apply length_replicate.
  - rewrite length_zip_with, IH, Hr. lia.
Qed.

Lemma width_columns_of c rs : width c rs -> width (length rs) (columns_of c rs).
Proof.
  induction 1 as [|r rs Hr Hrs IH]; simpl.
  - by apply width_replicate.
  - apply Forall_lookup_2. intros j col Hj.
    apply lookup_zip_with_Some in Hj as (a & t & -> & _ & Ht).
    simpl. f_equal. exact (Forall_lookup_1 _ _ _ _ IH Ht).
Qed.

(** Putting a column in front of a table and reading the rows again. *)
Lemma columns_of_zip_cons n (r : list F) rs :
  length r = length rs -> width n rs ->
  columns_of (S n) (zip_with cons r rs) = r :: columns_of n rs.
Proof.
  revert rs. induction r as [|a r IH]; intros [|t rs] Hlen Hw; simplify_eq/=; [done|].
  inversion Hw as [|? ? Ht Hw']; subst.
  rewrite (IH rs) by done. done.
Qed.

Lemma columns_of_involutive c rs :
  width c rs -> columns_of (length rs) (columns_of c rs) = rs.
Proof.
  induction 1 as [|r rs Hr Hrs IH]; simpl.
  - unfold columns_of. simpl. by induction c.
  - rewrite columns_of_zip_cons, IH; [done| |by apply width_columns_of].
    by rewrite length_columns_of, Hr.
Qed.

Lemma rect_width (a : array2 F) : rect a <-> width (ncols a) (rows a).
Proof. done. Qed.

Lemma rect_transpose (a : array2 F) : rect a -> rect (np_transpose a).
Proof. intros Ha. by apply width_columns_of. Qed.

Lemma shape_transpose (a : array2 F) :
  rect a -> shape (np_transpose a) = (ncols a, nrows a).
Proof.
  intros Ha. unfold shape, nrows, np_transpose, columns; simpl.
  by rewrite length_columns_of.
Qed.

Lemma np_transpose_involutive (a : array2 F) :
  rect a -> np_transpose (np_transpose a) = a.
Proof.
  intros Ha. destruct a as [c rs]. unfold np_transpose, nrows, columns; simpl in *.
  rewrite length_columns_of by done. by rewrite columns_of_involutive.
Qed.
End ArrayFacts.

(** ** The column view of the array operations *)

Section ColumnView.
Context {F : Type}.
Implicit Types (rs : list (list F)) (c n : nat).

Lemma map_const_nil {A B : Type} (l : list A) :
  fmap (fun _ => @nil B) l = replicate (length l) [].
Proof. induction l as [|x l IH]; simpl; [done|]. by rewrite <- IH. Qed.

Lemma columns_of_cons c (r : list F) rs :
  columns_of c (r :: rs) = zip_with cons r (columns_of c rs).
Proof. done. Qed.

Lemma columns_of_map {G : Type} (f : F -> G) c rs :
  columns_of c (fmap (fmap (M:=list) f) rs) = fmap (fmap (M:=list) f) (columns_of c rs).
Proof.
  induction rs as [|r rs IH].
  - simpl. by rewrite fmap_replicate.
  - rewrite fmap_cons. unfold columns_of in *. simpl foldr. rewrite IH.
    generalize (foldr (zip_with cons) (replicate c []) rs). clear IH.
    induction r as [|a r IHr]; intros [|t T]; [done..|].
    rewrite !fmap_cons. simpl. by rewrite IHr.
Qed.

Lemma columns_of_drop1 c rs :
  width c rs -> columns_of c (drop 1 rs) = fmap (drop 1) (columns_of c rs).
Proof.
  intros [|r rs' Hr Hrs]; simpl.
  - by rewrite fmap_replicate.
  - rewrite drop_0. symmetry. apply (fmap_zip_with_r cons (drop 1)); [done|].
    by rewrite length_columns_of, Hr.
Qed.

End ColumnView.

Section ColumnView2.
Context {F : Type}.
Implicit Types (rs : list (list F)) (c n : nat).

Lemma zip_with_columns_step {G : Type} (g : F -> F -> G) (a b : list F)
    (TA TB : list (list F)) :
  zip_with cons (zip_with g a b) (zip_with (zip_with g) TA TB)
  = zip_with (zip_with g) (zip_with cons a TA) (zip_with cons b TB).
Proof.
  revert b TA TB.
  induction a as [|x a IH]; intros [|y b] [|ta TA] [|tb TB]; simpl;
    rewrite ?zip_with_nil_r; try done.
  by rewrite IH.
Qed.

Lemma columns_of_zip_with (g : F -> F -> F) c (A B : list (list F)) :
  width c A -> width c B ->
  columns_of c (zip_with (zip_with g) A B)
  = zip_with (zip_with g) (columns_of c A) (columns_of c B).
Proof.
  intros HA. revert B. induction HA as [|a A Ha HA IH]; intros B HB.
  - simpl. rewrite zip_with_replicate_l by (by rewrite length_columns_of).
    rewrite <- (length_columns_of c B) at 1 by done.
    symmetry. apply (map_const_nil (B:=F)).
  - destruct HB as [|b B Hb HB].
    + rewrite zip_with_nil_r. simpl columns_of at 1. simpl columns_of at 2.
      rewrite zip_with_replicate_r
        by (rewrite length_columns_of; [lia|by constructor]).
      rewrite <- (length_columns_of c (a :: A)) at 1 by (by constructor).
      generalize (columns_of c (a :: A)). intros l.
      induction l as [|t l IHl]; simpl; [done|]. rewrite IHl. by rewrite zip_with_nil_r.
    + simpl zip_with at 1. rewrite !columns_of_cons, IH by done. apply zip_with_columns_step.
Qed.

Lemma foldl_zip_with_columns (f : F -> F -> F) c rs (init : list F) :
  width c rs -> length init = c ->
  foldl (zip_with f) init rs = zip_with (foldl f) init (columns_of c rs).
Proof.
  intros Hrs. revert init. induction Hrs as [|r rs Hr Hrs IH]; intros init Hi; simpl.
  - rewrite zip_with_replicate_r_eq by done. by rewrite list_fmap_id.
  - rewrite IH by (rewrite length_zip_with; lia).
    generalize (columns_of c rs). clear. revert r.
    induction init as [|i init IHi]; intros [|a r] [|t T]; simpl; try done.
    by rewrite IHi.
Qed.
End ColumnView2.


(** ** KSM1, channel by channel *)

Section KSM1Facts.
Context {F : Type} `{Float64 F}.
Implicit Types (a S : array2 F) (c : nat).

Lemma zip_with_drop1_take {A B : Type} (g : A -> A -> B) (l : list A) :
  zip_with g (drop 1 l) (take (length l - 1) l) = zip_with g (drop 1 l) l.
Proof. apply zip_with_take_r'. rewrite length_drop. lia. Qed.

Lemma rect_amap (f : F -> F) a : rect a -> rect (amap f a).
Proof.
  unfold rect, width; simpl. intros Ha. apply Forall_fmap.
  eapply Forall_impl; [exact Ha|]. intros r Hr; simpl. by rewrite length_fmap.
Qed.

Lemma width_zip_with (g : F -> F -> F) c (A B : list (list F)) :
  width c A -> width c B -> width c (zip_with (zip_with g) A B).
Proof.
  intros HA HB. apply Forall_lookup_2. intros i r Hi.
  apply lookup_zip_with_Some in Hi as (u & v & -> & Hu & Hv).
  rewrite length_zip_with.
  rewrite (Forall_lookup_1 _ _ _ _ HA Hu), (Forall_lookup_1 _ _ _ _ HB Hv). lia.
Qed.

Lemma rect_diff0 a : rect a -> rect (np_diff0 a).
Proof.
  intros Ha. apply width_zip_with; [by apply Forall_drop|by apply Forall_take].
Qed.

Lemma nrows_diff0 a : nrows (np_diff0 a) = nrows a - 1.
Proof.
  unfold nrows; simpl. rewrite length_zip_with, length_drop, length_take. unfold nrows. lia.
Qed.

Lemma rect_deriv c a : rect a -> ncols a = c -> rect (deriv c a).
Proof.
  intros Ha Hc. apply rect_diff0. unfold rect, width; simpl.
  constructor; [by rewrite length_replicate|]. rewrite <- Hc. by apply rect_diff0.
Qed.

Lemma ncols_deriv c a : ncols (deriv c a) = c.
Proof. done. Qed.

Lemma nrows_deriv c a : nrows (deriv c a) = nrows a - 1.
Proof.
  unfold deriv. rewrite nrows_diff0.
  change (nrows (np_concatenate0 (np_zeros 1 c) (np_diff0 a)))
    with (S (nrows (np_diff0 a))).
  rewrite nrows_diff0. lia.
Qed.

Lemma columns_amap (f : F -> F) a :
  columns (amap f a) = fmap (fmap (M:=list) f) (columns a).
Proof. apply columns_of_map. Qed.

Lemma columns_diff0 a : rect a -> columns (np_diff0 a) = chan_diff <$> columns a.
Proof.
  intros Ha. unfold columns; simpl. unfold nrows. rewrite zip_with_drop1_take.
  rewrite columns_of_zip_with by (try apply Forall_drop; exact Ha).
  rewrite columns_of_drop1 by exact Ha.
  rewrite zip_with_fmap_l, zip_with_diag. apply list_fmap_ext.
  intros _ col _. unfold chan_diff. by rewrite zip_with_drop1_take.
Qed.

Lemma rect_pad c a :
  rect a -> ncols a = c -> rect (np_concatenate0 (np_zeros 1 c) a).
Proof.
  intros Ha Hc. unfold rect, width; simpl.
  constructor; [by rewrite length_replicate|]. by rewrite <- Hc.
Qed.

Lemma columns_pad c a :
  rect a -> ncols a = c ->
  columns (np_concatenate0 (np_zeros 1 c) a) = cons (of_int 0) <$> columns a.
Proof.
  intros Ha Hc. unfold columns; simpl. rewrite Hc.
  apply zip_with_replicate_l. rewrite length_columns_of; [done|]. by rewrite <- Hc.
Qed.

Lemma columns_deriv c a :
  rect a -> ncols a = c -> columns (deriv c a) = chan_deriv <$> columns a.
Proof.
  intros Ha Hc. unfold deriv.
  rewrite columns_diff0 by (apply rect_pad; [by apply rect_diff0|done]).
  rewrite columns_pad by (by apply rect_diff0 || done).
  rewrite columns_diff0 by done. by rewrite <- !list_fmap_compose.
Qed.

Lemma np_sum0_columns a : rect a -> np_sum0 a = chan_sum <$> columns a.
Proof.
  intros Ha. unfold np_sum0.
  rewrite (foldl_zip_with_columns _ (ncols a)) by (done || apply length_replicate).
  rewrite zip_with_replicate_l; [done|]. by rewrite length_columns_of.
Qed.
End KSM1Facts.


Section KSM1Stack.
Context {F : Type} `{Float64 F}.
Implicit Types (a S : array2 F) (c : nat).

Lemma zip_with_fmap_same {A B C D : Type} (g : B -> C -> D) (f1 : A -> B) (f2 : A -> C)
    (l : list A) :
  zip_with g (f1 <$> l) (f2 <$> l) = (fun x => g (f1 x) (f2 x)) <$> l.
Proof. by rewrite zip_with_fmap_l, zip_with_fmap_r, zip_with_diag. Qed.

Lemma rect_orient S : rect S -> rect (orient S).
Proof.
  intros HS. unfold orient, shape. case_decide; [by apply rect_transpose|done].
Qed.

Lemma length_columns a : rect a -> length (columns a) = ncols a.
Proof. apply length_columns_of. Qed.

Lemma width_columns a : rect a -> width (nrows a) (columns a).
Proof. apply width_columns_of. Qed.

Lemma moment0_columns S : rect S -> normalise (m0_root S) = chan_m0 <$> columns S.
Proof.
  intros HS. unfold normalise, m0_root.
  rewrite np_sum0_columns by (by apply rect_amap).
  rewrite columns_amap, <- !list_fmap_compose. done.
Qed.

Lemma moment_hi_columns n a :
  rect a -> moment_hi n a = chan_mhi n <$> columns a.
Proof.
  intros Ha. unfold moment_hi, normalise.
  rewrite np_sum0_columns by (by apply rect_amap).
  rewrite columns_amap, <- !list_fmap_compose. done.
Qed.

Lemma abs_sum_columns a :
  rect a -> np_sum0 (amap fabs a) = (fun col => chan_sum (fabs <$> col)) <$> columns a.
Proof.
  intros Ha. rewrite np_sum0_columns by (by apply rect_amap).
  by rewrite columns_amap, <- list_fmap_compose.
Qed.

(** [KSM1] is the stack of the six channel quantities of the oriented
    window, under [np.log(np.abs(.))]. *)
Lemma KSM1_columns S0 :
  rect S0 ->
  KSM1 S0
  = logabs <$> mjoin ((fun q => q <$> columns (orient S0)) <$> chan_quantities).
Proof.
  intros HS0. pose proof (rect_orient _ HS0) as HS.
  pose proof (width_columns _ HS) as Hw.
  unfold KSM1, KSM1_locals, shape. simpl.
  set (S := orient S0) in *.
  assert (Hd1 : rect (deriv (ncols S) S)) by (by apply rect_deriv).
  assert (Hd2 : rect (deriv (ncols S) (deriv (ncols S) S))) by (by apply rect_deriv).
  rewrite moment0_columns by done.
  rewrite !moment_hi_columns by done.
  rewrite !abs_sum_columns by done.
  rewrite !columns_deriv by done.
  rewrite <- !list_fmap_compose.
  assert (Hm2 : (chan_mhi (nrows S) ∘ chan_deriv) <$> columns S = chan_m2 <$> columns S).
  { apply Forall_fmap_ext. eapply Forall_impl; [exact Hw|].
    intros col Hcol; simpl. unfold chan_m2. by rewrite Hcol. }
  assert (Hm4 : (chan_mhi (nrows S) ∘ chan_deriv ∘ chan_deriv) <$> columns S
                = chan_m4 <$> columns S).
  { apply Forall_fmap_ext. eapply Forall_impl; [exact Hw|].
    intros col Hcol; simpl. unfold chan_m4. by rewrite Hcol. }
  rewrite Hm2, Hm4.
  rewrite !zip_with_fmap_same, <- !list_fmap_compose, !zip_with_fmap_same.
  rewrite app_nil_r. done.
Qed.

Lemma length_KSM1 S0 : rect S0 -> length (KSM1 S0) = 6 * ncols (orient S0).
Proof.
  intros HS0. rewrite KSM1_columns by done. simpl.
  rewrite length_fmap, !length_app, !length_fmap, length_columns by (by apply rect_orient).
  simpl. lia.
Qed.

Lemma orient_tall S : ncols S <= nrows S -> orient S = S.
Proof. intros Hle. unfold orient, shape. case_decide; [lia|done]. Qed.
End KSM1Stack.


(** ** The driver *)

Section Slices.
Context {F : Type}.
Implicit Types (x : array2 F).

Lemma slice_bound_in_range (n : nat) (k : Z) :
  (0 <= k <= Z.of_nat n)%Z -> slice_bound n k = Z.to_nat k.
Proof. intros Hk. unfold slice_bound. case_decide; lia. Qed.

Lemma py_slice_in_range {A : Type} (a b : Z) (l : list A) :
  (0 <= a)%Z -> (a <= b)%Z -> (b <= Z.of_nat (length l))%Z ->
  py_slice a b l = take (Z.to_nat (b - a)) (drop (Z.to_nat a) l).
Proof.
  intros Ha Hab Hb. unfold py_slice.
  rewrite !slice_bound_in_range by lia. f_equal. lia.
Qed.

Lemma length_py_slice_in_range {A : Type} (a b : Z) (l : list A) :
  (0 <= a)%Z -> (a <= b)%Z -> (b <= Z.of_nat (length l))%Z ->
  length (py_slice a b l) = Z.to_nat (b - a).
Proof.
  intros Ha Hab Hb. rewrite py_slice_in_range by done.
  rewrite length_take, length_drop. lia.
Qed.

Lemma rect_row_slice (a b : Z) x : rect x -> rect (row_slice a b x).
Proof. intros Hx. unfold rect, width; simpl. by apply Forall_take, Forall_drop. Qed.

Lemma nrows_row_slice (a b : Z) x :
  (0 <= a)%Z -> (a <= b)%Z -> (b <= Z.of_nat (nrows x))%Z ->
  nrows (row_slice a b x) = Z.to_nat (b - a).
Proof. apply length_py_slice_in_range. Qed.

Lemma rect_newaxis (v : list F) : rect (newaxis v).
Proof. unfold rect, width; simpl. apply Forall_fmap. by apply Forall_true. Qed.

Lemma broadcast2_same (f : F -> F -> F) (a b : list F) :
  length a = length b -> broadcast2 f a b = Ok (zip_with f a b).
Proof. intros Hab. unfold broadcast2. by case_decide. Qed.

Lemma assign_row_same (feat : array2 F) (i : nat) (v : list F) :
  i < nrows feat -> length v = ncols feat ->
  assign_row feat i v = Ok (Array2 (ncols feat) (<[i := v]> (rows feat))).
Proof. intros Hi Hv. unfold assign_row. case_decide; [lia|]. by case_decide. Qed.

Lemma fmap_zip_with_compose {A B C D : Type} (g : C -> D) (f : A -> B -> C)
    (l : list A) (k : list B) :
  g <$> zip_with f l k = zip_with (fun a b => g (f a b)) l k.
Proof.
  revert k. induction l as [|a l IH]; intros [|b k]; [done..|].
  simpl zip_with. rewrite fmap_cons. by rewrite IH.
Qed.
End Slices.


Section Driver.
Context {F : Type} `{Float64 F}.
Implicit Types (x w : array2 F) (s : state F).

Lemma correlation_same (ebp efp : list F) :
  length ebp = length efp ->
  correlation ebp efp
  = Ok (zip_with (fun b f => fmul (of_int (-2)) (fmul b f)) ebp efp,
        zip_with (fun b f => fadd (fmul f f) (fmul b b)) ebp efp).
Proof.
  intros Hlen. unfold correlation.
  repeat (rewrite broadcast2_same by (rewrite ?length_zip_with; lia); simpl).
  rewrite fmap_zip_with_compose. unfold mret, result_ret. do 2 f_equal.
  rewrite !zip_with_diag, zip_with_fmap_l, zip_with_fmap_r.
  by rewrite <- zip_with_flip.
Qed.

Lemma length_KSM1_tall w :
  rect w -> ncols w <= nrows w -> length (KSM1 w) = 6 * ncols w.
Proof. intros Hw Hle. rewrite length_KSM1 by done. by rewrite orient_tall. Qed.

Lemma window_terms w :
  rect w -> ncols w <= nrows w ->
  correlation (KSM1 w) (KSM1 (nonlinear w)) = Ok (num_of w, den_of w)
  /\ length (num_of w) = 6 * ncols w /\ length (den_of w) = 6 * ncols w.
Proof.
  intros Hw Hle.
  assert (H1 : length (KSM1 w) = 6 * ncols w) by (by apply length_KSM1_tall).
  assert (H2 : length (KSM1 (nonlinear w)) = 6 * ncols w).
  { rewrite length_KSM1_tall; [done|by apply rect_amap|].
    unfold nonlinear, amap, nrows; simpl. rewrite length_fmap. exact Hle. }
  split; [apply correlation_same; lia|].
  unfold num_of, den_of. rewrite !length_zip_with. lia.
Qed.

Lemma length_fused (lagwin curwin : array2 F) :
  rect lagwin -> rect curwin ->
  ncols lagwin <= nrows lagwin -> ncols curwin <= nrows curwin ->
  ncols lagwin = ncols curwin ->
  length (fused lagwin curwin) = 6 * ncols curwin.
Proof.
  intros Hl Hc Hl' Hc' Heq.
  destruct (window_terms lagwin Hl Hl') as (_ & Hn & Hd).
  destruct (window_terms curwin Hc Hc') as (_ & Hn2 & Hd2).
  unfold fused. rewrite !length_zip_with. lia.
Qed.

(** One pass through the body, when both windows lie inside [x] and are
    no wider than long. *)
Lemma body_in_range x (steps winsize wininc : Z) (i : nat) s :
  rect x ->
  (0 <= st s - steps * wininc)%Z -> (0 <= steps * wininc)%Z ->
  en s = (st s + winsize)%Z -> (en s <= Z.of_nat (nrows x))%Z ->
  (Z.of_nat (ncols x) <= winsize)%Z ->
  i < nrows (feat s) -> ncols (feat s) = ncols x * 6 ->
  body x steps wininc i s
  = Ok (State (st s + wininc) (en s + wininc)
          (Array2 (ncols (feat s))
             (<[i := fused (row_slice (st s - steps * wininc) (en s - steps * wininc) x)
                       (row_slice (st s) (en s) x)]> (rows (feat s))))).
Proof.
  intros Hx Hlo Hsw Hen Hhi Hwide Hi Hcols. unfold body.
  set (lagwin := row_slice (st s - steps * wininc) (en s - steps * wininc) x).
  set (curwin := row_slice (st s) (en s) x).
  assert (Hrl : rect lagwin) by (by apply rect_row_slice).
  assert (Hrc : rect curwin) by (by apply rect_row_slice).
  assert (Hnl : nrows lagwin = Z.to_nat winsize).
  { unfold lagwin. rewrite nrows_row_slice by lia. f_equal. lia. }
  assert (Hnc : nrows curwin = Z.to_nat winsize).
  { unfold curwin. rewrite nrows_row_slice by lia. f_equal. lia. }
  assert (Hcl : ncols lagwin <= nrows lagwin) by (rewrite Hnl; simpl; lia).
  assert (Hcc : ncols curwin <= nrows curwin) by (rewrite Hnc; simpl; lia).
  destruct (window_terms lagwin Hrl Hcl) as (-> & Hn & Hd).
  destruct (window_terms curwin Hrc Hcc) as (-> & Hn2 & Hd2). simpl.
  repeat (rewrite broadcast2_same by (rewrite ?length_zip_with; simpl in *; lia); simpl).
  fold (fused lagwin curwin).
  rewrite assign_row_same; [done|done|].
  rewrite length_fused by done. simpl. lia.
Qed.
End Driver.


Section Loop.
Context {F : Type} `{Float64 F}.
Implicit Types (x w : array2 F) (s : state F).

Lemma length_fused_row x (steps winsize wininc : Z) (i : nat) :
  rect x -> (0 <= steps)%Z -> (1 <= wininc)%Z ->
  (Z.of_nat (ncols x) <= winsize)%Z ->
  ((Z.of_nat i + steps) * wininc + winsize <= Z.of_nat (nrows x))%Z ->
  length (fused_row x steps winsize wininc i) = ncols x * 6.
Proof.
  intros Hx Hs Hw Hwide Hhi. unfold fused_row.
  assert (0 <= Z.of_nat i * wininc)%Z by nia.
  assert (Z.of_nat i * wininc <= (Z.of_nat i + steps) * wininc)%Z by nia.
  rewrite length_fused; simpl; try lia; try (by apply rect_row_slice).
  - unfold nrows; simpl. rewrite length_py_slice_in_range by (unfold nrows in *; lia). lia.
  - unfold nrows; simpl. rewrite length_py_slice_in_range by (unfold nrows in *; lia). lia.
Qed.

Lemma for_each_body x (steps winsize wininc : Z) (m : nat) :
  rect x -> (0 <= steps)%Z -> (1 <= wininc)%Z ->
  (Z.of_nat (ncols x) <= winsize)%Z ->
  forall (k : nat) s,
    st s = ((Z.of_nat k + steps) * wininc)%Z -> en s = (st s + winsize)%Z ->
    (forall j : nat, k <= j < k + m ->
       ((Z.of_nat j + steps) * wininc + winsize <= Z.of_nat (nrows x))%Z) ->
    k + m <= nrows (feat s) -> ncols (feat s) = ncols x * 6 -> rect (feat s) ->
    exists s',
      for_each (body x steps wininc) (seq k m) s = Ok s'
      /\ ncols (feat s') = ncols x * 6
      /\ nrows (feat s') = nrows (feat s)
      /\ rect (feat s')
      /\ forall i : nat,
           rows (feat s') !! i
           = if decide (k <= i < k + m)
             then Some (fused_row x steps winsize wininc i)
             else rows (feat s) !! i.
Proof.
  intros Hx Hs Hw Hwide. induction m as [|m IH]; intros k s Hst Hen Hin Hrows Hcols Hrect.
  - exists s. simpl. repeat split; try done. intros i. case_decide; [lia|done].
  - simpl.
    assert (Hk : ((Z.of_nat k + steps) * wininc + winsize <= Z.of_nat (nrows x))%Z)
      by (apply Hin; lia).
    assert (0 <= Z.of_nat k * wininc)%Z by nia.
    assert (0 <= steps * wininc)%Z by nia.
    rewrite (body_in_range x steps winsize wininc k s) by (try done; lia). simpl.
    replace (st s - steps * wininc)%Z with (Z.of_nat k * wininc)%Z by lia.
    replace (en s - steps * wininc)%Z with (Z.of_nat k * wininc + winsize)%Z by lia.
    rewrite Hen, Hst. fold (fused_row x steps winsize wininc k).
    set (s1 := State _ _ _).
    destruct (IH (S k) s1) as (s' & Hrun & Hc' & Hr' & Hrect' & Hrow).
    + simpl. lia.
    + simpl. lia.
    + intros j Hj. apply Hin. lia.
    + unfold nrows; simpl. rewrite length_insert. unfold nrows in Hrows. lia.
    + done.
    + unfold rect, width; simpl. apply Forall_insert; [exact Hrect|].
      rewrite Hcols. by apply length_fused_row.
    + exists s'. split; [exact Hrun|]. split; [done|]. split.
      { rewrite Hr'. unfold nrows; simpl. by rewrite length_insert. }
      split; [done|]. intros i. rewrite Hrow. simpl.
      destruct (decide (i = k)) as [->|Hne].
      * rewrite decide_False by lia. rewrite decide_True by lia.
        apply list_lookup_insert_eq. unfold nrows in Hrows. lia.
      * rewrite list_lookup_insert_ne by done.
        case_decide; case_decide; try lia; done.
Qed.
End Loop.


Section Result.
Context {F : Type} `{Float64 F}.
Implicit Types (x w : array2 F) (s : state F).

Lemma rect_zeros (r c : nat) : rect (np_zeros (F:=F) r c).
Proof. apply width_replicate. apply length_replicate. Qed.

Lemma nrows_zeros (r c : nat) : nrows (np_zeros (F:=F) r c) = r.
Proof. apply length_replicate. Qed.

(** Every window index below [numwin - steps] has its two windows inside
    the input. *)
Lemma window_in_range (datasize : nat) (steps winsize wininc : Z) (j : nat) :
  (1 <= wininc)%Z ->
  (Z.of_nat j < numwin_of datasize winsize wininc - steps)%Z ->
  ((Z.of_nat j + steps) * wininc + winsize <= Z.of_nat datasize)%Z.
Proof.
  unfold numwin_of. intros Hw Hj.
  pose proof (Z.mul_div_le (Z.of_nat datasize - winsize) wininc ltac:(lia)) as Hq.
  set (q := ((Z.of_nat datasize - winsize) / wininc)%Z) in *.
  assert ((Z.of_nat j + steps) * wininc <= q * wininc)%Z by nia.
  lia.
Qed.

(** The call succeeds on a rectangular input whose windows are no wider
    than long, and its result is the table of the rows [fused_row]. *)
Lemma getfTDDfeat_v2_rows (x : ndarray F) (steps winsize wininc : Z) :
  let x2 := as_columns x in
  let numwin := numwin_of (nrows x2) winsize wininc in
  rect x2 -> (1 <= wininc)%Z -> (0 <= steps <= numwin)%Z ->
  ((steps < numwin)%Z -> (Z.of_nat (ncols x2) <= winsize)%Z) ->
  exists feat,
    getfTDDfeat_v2 x steps winsize wininc = Ok feat
    /\ rect feat
    /\ ncols feat = ncols x2 * 6
    /\ Z.of_nat (nrows feat) = (numwin - steps)%Z
    /\ forall i : nat,
         i < nrows feat -> rows feat !! i = Some (fused_row x2 steps winsize wininc i).
Proof.
  intros x2 numwin Hx Hw Hs Hwide. unfold getfTDDfeat_v2.
  fold x2. fold numwin.
  rewrite decide_False by lia. rewrite decide_False by lia.
  unfold range. set (n := Z.to_nat (numwin - steps)).
  set (f0 := np_zeros n (ncols x2 * 6)).
  destruct (decide (n = 0)) as [Hn|Hn].
  - rewrite Hn. simpl. exists f0. unfold f0. rewrite Hn.
    split; [done|]. split; [apply rect_zeros|]. split; [done|].
    split; [rewrite nrows_zeros; unfold n in Hn; lia|].
    intros i. rewrite nrows_zeros. lia.
  - destruct (for_each_body x2 steps winsize wininc n Hx ltac:(lia) Hw
                ltac:(apply Hwide; lia) 0 (initial steps winsize wininc f0))
      as (s' & Hrun & Hc & Hr & Hrect & Hrow).
    + simpl. lia.
    + simpl. lia.
    + intros j Hj. apply window_in_range; [done|]. fold numwin. lia.
    + simpl. unfold f0. rewrite nrows_zeros. lia.
    + done.
    + apply rect_zeros.
    + rewrite Hrun. simpl. exists (feat s').
      simpl in Hr. unfold f0 in Hr. rewrite nrows_zeros in Hr.
      repeat split; try done.
      * rewrite Hr. unfold n in *. lia.
      * intros i Hi. rewrite Hrow. rewrite decide_True by lia. done.
Qed.
End Result.


Section Bounds.
Context {F : Type} `{Float64 F}.
Implicit Types (x w : array2 F) (s : state F).

Lemma bounds_at_closed (steps winsize wininc : Z) (i : nat) :
  bounds_at steps winsize wininc i
  = ((Z.of_nat i + steps) * wininc, (Z.of_nat i + steps) * wininc + winsize)%Z.
Proof.
  unfold bounds_at. induction i as [|i IH].
  - simpl. f_equal; lia.
  - rewrite Nat.iter_succ, IH. unfold advance; simpl. f_equal; lia.
Qed.

Lemma body_bounds x (steps wininc : Z) (i : nat) s s' :
  body x steps wininc i s = Ok s' ->
  (st s', en s') = advance wininc (st s, en s).
Proof.
  unfold body. intros Hrun.
  repeat match type of Hrun with
         | mbind _ ?c = _ =>
             let r := fresh "r" in
             destruct c as [r|]; simpl in Hrun; [|done];
             try (destruct r as [? ?]; simpl in Hrun)
         end.
  by inversion Hrun.
Qed.

Lemma for_each_bounds x (steps wininc : Z) (m : nat) :
  forall (k : nat) s s',
    for_each (body x steps wininc) (seq k m) s = Ok s' ->
    (st s', en s') = Nat.iter m (advance wininc) (st s, en s).
Proof.
  induction m as [|m IH]; intros k s s' Hrun; simpl in Hrun.
  - by inversion Hrun.
  - destruct (body x steps wininc k s) as [s1|] eqn:Hbody; simpl in Hrun; [|done].
    rewrite Nat.iter_succ_r, <- (body_bounds _ _ _ _ _ _ Hbody). by apply (IH (S k)).
Qed.
End Bounds.


(** ** The moment extractor *)

Section KSM1Claims.
Context {F : Type} `{Float64 F}.
Implicit Types (S : array2 F).

(** The list [columns S !! j] holds the entries of index [j] of the rows,
    in the order of the rows. *)
Lemma columns_of_lookup (c : nat) (rs : list (list F)) (j : nat) :
  width c rs -> j < c ->
  exists col,
    columns_of c rs !! j = Some col
    /\ length col = length rs
    /\ forall (i : nat) (r : list F), rs !! i = Some r -> col !! i = r !! j.
Proof.
  intros Hrs Hj. induction Hrs as [|r rs Hr Hrs (col & Hcol & Hlen & Hent)].
  - exists []. simpl. split; [by apply lookup_replicate_2|]. split; [done|]. by intros [|i] r.
  - destruct (lookup_lt_is_Some_2 r j ltac:(lia)) as [e He].
    exists (e :: col). rewrite columns_of_cons, lookup_zip_with, He, Hcol. simpl.
    split; [done|]. split; [by rewrite Hlen|].
    intros [|i] r' Hi; simpl in *; [by simplify_eq|by apply Hent].
Qed.

(** C3: on a window of [samples] rows and [channels] columns with
    [samples >= channels] and [samples >= 3], [KSM1] returns [6 * channels]
    numbers: the six channel quantities m0, m0-m2, m0-m4, sparseness, IRF
    and WLR, in that order, each under log(abs(.)), laid out quantity by
    quantity; the entry [k * channels + j] is the quantity [k] of the
    channel [j]. *)
Theorem KSM1_moment_major S :
  let samples := nrows S in
  let channels := ncols S in
  rect S -> channels <= samples -> 3 <= samples ->
  length (KSM1 S) = 6 * channels
  /\ KSM1 S = logabs <$> mjoin ((fun q => q <$> columns S) <$> chan_quantities)
  /\ forall j : nat, j < channels ->
       exists col,
         columns S !! j = Some col
         /\ (forall (i : nat) (r : list F), rows S !! i = Some r -> col !! i = r !! j)
         /\ forall (k : nat) (q : list F -> F),
              chan_quantities !! k = Some q ->
              KSM1 S !! (k * channels + j) = Some (logabs (q col)).
Proof.
  intros samples channels HS Hle _.
  pose proof (KSM1_columns S HS) as Hstack. rewrite (orient_tall S Hle) in Hstack.
  split; [by rewrite length_KSM1, orient_tall|]. split; [exact Hstack|].
  intros j Hj. destruct (columns_of_lookup channels (rows S) j HS Hj) as (col & Hcol & _ & Hent).
  change (columns_of channels (rows S)) with (columns S) in Hcol.
  exists col. split; [exact Hcol|]. split; [exact Hent|]. intros k q Hq.
  rewrite Hstack, list_lookup_fmap.
  assert (Hjoin : mjoin ((fun q => q <$> columns S) <$> chan_quantities)
                    !! (k * channels + j) = Some (q col)).
  { apply (join_lookup_Some_same_length' channels); [|done|].
    - apply Forall_fmap, Forall_true. intros q'. simpl.
      by rewrite length_fmap, length_columns.
    - exists (q <$> columns S). rewrite list_lookup_fmap, Hq. split; [done|].
      by rewrite list_lookup_fmap, Hcol. }
  by rewrite Hjoin.
Qed.

(** C4, as the code has it: for a window of [samples >= 3] rows and at most
    [samples] columns, [d1] has one row fewer than [S], and [d2] has one
    row fewer than [d1]; the zero row that is put in front gives back the
    row that the inner difference takes, and the outer difference takes
    one more. *)
Theorem KSM1_derivative_rows S :
  let L := KSM1_locals S in
  3 <= nrows S -> ncols S <= nrows S ->
  l_S L = S
  /\ nrows (l_d1 L) + 1 = nrows S
  /\ nrows (l_d2 L) + 1 = nrows (l_d1 L).
Proof.
  intros L Hs Hc. unfold L, KSM1_locals, shape. rewrite (orient_tall S Hc). simpl.
  rewrite !nrows_deriv. repeat split; lia.
Qed.

(** C6: a window of [samples] rows and [channels < samples] columns that is
    passed transposed, as [channels] rows of [samples] entries, gives the
    same output as the window itself. *)
Theorem KSM1_transposed S :
  rect S -> ncols S < nrows S -> KSM1 (np_transpose S) = KSM1 S.
Proof.
  intros HS Hlt.
  assert (Ho : orient (np_transpose S) = orient S).
  { unfold orient at 1. rewrite shape_transpose by done.
    rewrite decide_True by done. rewrite np_transpose_involutive by done.
    symmetry. apply orient_tall. lia. }
  unfold KSM1, KSM1_locals. by rewrite Ho.
Qed.
End KSM1Claims.


(** ** The window fusion driver *)

Section DriverClaims.
Context {F : Type} `{Float64 F}.
Implicit Types (x : array2 F).

(** C1, as the code has it: for a 2-D input of [datasize] rows and
    [Nsignals] columns with [winsize <= datasize], [1 <= steps < numwin],
    [wininc >= 1] and, in addition, [Nsignals <= winsize], the call returns
    a matrix whose row [i], for every [i] below [numwin - steps], is
    [(num - den) * (num2 - den2)] entry by entry, where [num = -2*ebp*efp]
    and [den = efp^2 + ebp^2] come from the window
    [x[i*wininc : i*wininc+winsize]] and [num2], [den2] from the window
    [x[(i+steps)*wininc : (i+steps)*wininc+winsize]]. *)
Theorem getfTDDfeat_v2_fused_rows x (steps winsize wininc : Z) :
  let datasize := nrows x in
  let Nsignals := ncols x in
  let numwin := numwin_of datasize winsize wininc in
  rect x ->
  (winsize <= Z.of_nat datasize)%Z -> (1 <= steps < numwin)%Z -> (1 <= wininc)%Z ->
  (Z.of_nat Nsignals <= winsize)%Z ->
  exists feat,
    getfTDDfeat_v2 (Arr2 x) steps winsize wininc = Ok feat
    /\ forall i : nat, (Z.of_nat i < numwin - steps)%Z ->
         let lagwin := row_slice (Z.of_nat i * wininc) (Z.of_nat i * wininc + winsize) x in
         let curwin :=
           row_slice ((Z.of_nat i + steps) * wininc)
             ((Z.of_nat i + steps) * wininc + winsize) x in
         let ebp := KSM1 lagwin in
         let efp := KSM1 (nonlinear lagwin) in
         let num := zip_with (fun b f => fmul (of_int (-2)) (fmul b f)) ebp efp in
         let den := zip_with (fun b f => fadd (fmul f f) (fmul b b)) ebp efp in
         let ebp2 := KSM1 curwin in
         let efp2 := KSM1 (nonlinear curwin) in
         let num2 := zip_with (fun b f => fmul (of_int (-2)) (fmul b f)) ebp2 efp2 in
         let den2 := zip_with (fun b f => fadd (fmul f f) (fmul b b)) ebp2 efp2 in
         rows feat !! i = Some (zip_with fmul (zip_with fsub num den) (zip_with fsub num2 den2))
         /\ length num = 6 * Nsignals /\ length den = 6 * Nsignals
         /\ length num2 = 6 * Nsignals /\ length den2 = 6 * Nsignals.
Proof.
  intros datasize Nsignals numwin Hx Hsize Hsteps Hinc Hwide.
  subst datasize Nsignals numwin.
  destruct (getfTDDfeat_v2_rows (Arr2 x) steps winsize wininc Hx Hinc)
    as (feat & Hrun & _ & _ & Hrows & Hrow); [simpl; lia|done|].
  exists feat. split; [exact Hrun|]. intros i Hi. simpl in Hrows, Hrow.
  split; [apply Hrow; lia|].
  pose proof (window_in_range (nrows x) steps winsize wininc i Hinc Hi) as Hhi.
  assert (0 <= Z.of_nat i * wininc)%Z by nia.
  assert (Z.of_nat i * wininc <= (Z.of_nat i + steps) * wininc)%Z by nia.
  set (lagwin := row_slice (Z.of_nat i * wininc) (Z.of_nat i * wininc + winsize) x).
  set (curwin := row_slice _ _ x).
  assert (Hl : ncols lagwin <= nrows lagwin).
  { unfold lagwin. rewrite nrows_row_slice by lia. simpl. lia. }
  assert (Hc : ncols curwin <= nrows curwin).
  { unfold curwin. rewrite nrows_row_slice by lia. simpl. lia. }
  destruct (window_terms lagwin (rect_row_slice _ _ _ Hx) Hl) as (_ & Hn & Hd).
  destruct (window_terms curwin (rect_row_slice _ _ _ Hx) Hc) as (_ & Hn2 & Hd2).
  done.
Qed.

(** C2, as the code has it: for a 2-D input of shape [(datasize, Nsignals)]
    with [winsize <= datasize], [1 <= steps <= numwin], [wininc >= 1] and,
    in addition, [Nsignals <= winsize] whenever [steps < numwin], the call
    returns an array of shape
    [(floor((datasize - winsize)/wininc) + 1 - steps, Nsignals * 6)]. *)
Theorem getfTDDfeat_v2_shape x (steps winsize wininc : Z) :
  let datasize := nrows x in
  let Nsignals := ncols x in
  let numwin := numwin_of datasize winsize wininc in
  rect x ->
  (winsize <= Z.of_nat datasize)%Z -> (1 <= steps <= numwin)%Z -> (1 <= wininc)%Z ->
  ((steps < numwin)%Z -> (Z.of_nat Nsignals <= winsize)%Z) ->
  exists feat,
    getfTDDfeat_v2 (Arr2 x) steps winsize wininc = Ok feat
    /\ rect feat
    /\ Z.of_nat (nrows feat) = ((Z.of_nat datasize - winsize) / wininc + 1 - steps)%Z
    /\ ncols feat = Nsignals * 6.
Proof.
  intros datasize Nsignals numwin Hx Hsize Hsteps Hinc Hwide.
  subst datasize Nsignals numwin.
  destruct (getfTDDfeat_v2_rows (Arr2 x) steps winsize wininc Hx Hinc)
    as (feat & Hrun & Hrect & Hcols & Hrows & _); [simpl; lia|exact Hwide|].
  exists feat. done.
Qed.

(** C8: a 1-D input of [datasize] samples is treated as the array of shape
    [(datasize, 1)] with the same samples: the call returns what it returns
    on that array, and for valid parameters ([wininc >= 1],
    [1 <= winsize <= datasize], [1 <= steps <= numwin]) this is a matrix of
    shape [(numwin - steps, 6)]. *)
Theorem getfTDDfeat_v2_1d (v : list F) (steps winsize wininc : Z) :
  let datasize := length v in
  let numwin := numwin_of datasize winsize wininc in
  (1 <= wininc)%Z -> (1 <= winsize <= Z.of_nat datasize)%Z -> (1 <= steps <= numwin)%Z ->
  shape (newaxis v) = (datasize, 1)
  /\ rows (newaxis v) = (fun e => [e]) <$> v
  /\ getfTDDfeat_v2 (Arr1 v) steps winsize wininc
     = getfTDDfeat_v2 (Arr2 (newaxis v)) steps winsize wininc
  /\ exists feat,
       getfTDDfeat_v2 (Arr1 v) steps winsize wininc = Ok feat
       /\ rect feat
       /\ Z.of_nat (nrows feat) = (numwin - steps)%Z
       /\ ncols feat = 6.
Proof.
  intros datasize numwin Hinc Hsize Hsteps.
  assert (Hn : nrows (newaxis v) = datasize) by (unfold nrows; simpl; apply length_fmap).
  split; [unfold shape; by rewrite Hn|]. split; [done|]. split; [done|].
  destruct (getfTDDfeat_v2_rows (Arr1 v) steps winsize wininc (rect_newaxis v) Hinc)
    as (feat & Hrun & Hrect & Hcols & Hrows & _); simpl.
  - rewrite Hn. fold numwin. lia.
  - lia.
  - exists feat. simpl in Hrows. rewrite Hn in Hrows. done.
Qed.

(** C9: [winsize] is a positive integer, and with [winsize <= datasize],
    [1 <= steps <= numwin] and [wininc >= 1], whenever the body is entered
    for an index [i] below [numwin - steps] the bounds are
    [st = (i+steps)*wininc] and [en = st + winsize]; they satisfy
    [0 <= st < en <= datasize], [0 <= st - steps*wininc] and
    [en - steps*wininc <= datasize], and both windows have exactly
    [winsize] rows. *)
Theorem window_bounds_in_range x (steps winsize wininc : Z) :
  let datasize := Z.of_nat (nrows x) in
  let numwin := numwin_of (nrows x) winsize wininc in
  (1 <= winsize <= datasize)%Z -> (1 <= steps <= numwin)%Z -> (1 <= wininc)%Z ->
  forall i : nat, (Z.of_nat i < numwin - steps)%Z ->
    let st_i := (bounds_at steps winsize wininc i).1 in
    let en_i := (bounds_at steps winsize wininc i).2 in
    (forall (f0 : array2 F) (s : state F),
       for_each (body x steps wininc) (seq 0 i) (initial steps winsize wininc f0) = Ok s ->
       st s = st_i /\ en s = en_i)
    /\ st_i = ((Z.of_nat i + steps) * wininc)%Z
    /\ en_i = (st_i + winsize)%Z
    /\ (0 <= st_i < en_i)%Z /\ (en_i <= datasize)%Z
    /\ (0 <= st_i - steps * wininc)%Z /\ (en_i - steps * wininc <= datasize)%Z
    /\ nrows (row_slice st_i en_i x) = Z.to_nat winsize
    /\ nrows (row_slice (st_i - steps * wininc) (en_i - steps * wininc) x)
       = Z.to_nat winsize.
Proof.
  intros datasize numwin Hsize Hsteps Hinc i Hi st_i en_i.
  pose proof (window_in_range (nrows x) steps winsize wininc i Hinc Hi) as Hhi.
  fold datasize in Hhi.
  assert (Hst : st_i = ((Z.of_nat i + steps) * wininc)%Z)
    by (unfold st_i; by rewrite bounds_at_closed).
  assert (Hen : en_i = (st_i + winsize)%Z)
    by (unfold en_i, st_i; by rewrite bounds_at_closed).
  assert (0 <= Z.of_nat i * wininc)%Z by nia.
  assert (0 <= steps * wininc)%Z by nia.
  assert (Hlag : (st_i - steps * wininc = Z.of_nat i * wininc)%Z) by lia.
  split.
  { intros f0 s Hrun. apply for_each_bounds in Hrun. simpl in Hrun.
    fold (bounds_at steps winsize wininc i) in Hrun.
    unfold st_i, en_i. rewrite <- Hrun. done. }
  repeat split; try lia.
  - rewrite nrows_row_slice; unfold datasize in *; lia.
  - rewrite nrows_row_slice; unfold datasize in *; lia.
Qed.

(** C10: when [steps = numwin] the range of the loop is empty, so that no
    window is cut and [KSM1] is not called, whatever the body is, and the
    call returns, without raising, the matrix of shape
    [(0, Nsignals * 6)]. *)
Theorem getfTDDfeat_v2_no_window (x : ndarray F) (steps winsize wininc : Z) :
  let datasize := nrows (as_columns x) in
  let Nsignals := ncols (as_columns x) in
  let numwin := numwin_of datasize winsize wininc in
  wininc <> 0%Z -> steps = numwin ->
  range (numwin - steps) = []
  /\ (forall (f : nat -> state F -> result (state F)) (s : state F),
        for_each f (range (numwin - steps)) s = Ok s)
  /\ getfTDDfeat_v2 x steps winsize wininc = Ok (Array2 (Nsignals * 6) [])
  /\ shape (Array2 (F:=F) (Nsignals * 6) []) = (0, Nsignals * 6).
Proof.
  intros datasize Nsignals numwin Hinc Hsteps.
  assert (Hr : range (numwin - steps) = []) by (unfold range; by rewrite Hsteps, Z.sub_diag).
  split; [exact Hr|]. split; [intros f s; by rewrite Hr|]. split; [|done].
  unfold getfTDDfeat_v2. fold datasize Nsignals numwin.
  rewrite decide_False by done. rewrite decide_False by lia.
  rewrite Hr. simpl. by rewrite Hsteps, Z.sub_diag.
Qed.
End DriverClaims.


(** ** Values: the zeroth moment *)

(** Reads the operations of the instance without unfolding them. *)
Ltac xreal_ops :=
  cbn [of_int tenth spacing1 fadd fsub fmul fdiv fpow fsqrt fabs flog xreal_float64] in *.

Section ZerothMoment.
Import XReal.
Local Open Scope R_scope.

Lemma sign_pos r : 0 < r -> sign r = Gt.
Proof.
  intros Hr. unfold sign. destruct (total_order_T r 0) as [[Hlt|Heq]|Hgt]; [lra|lra|done].
Qed.

Lemma sign_zero : sign 0 = Eq.
Proof.
  unfold sign. destruct (total_order_T 0 0) as [[Hlt|Heq]|Hgt]; [lra|done|lra].
Qed.

Lemma sign_nonneg r : 0 <= r -> sign r <> Lt.
Proof. intros [Hr| <-]; [by rewrite sign_pos|by rewrite sign_zero]. Qed.

Lemma xsqrt_nonneg r : 0 <= r -> xsqrt (Fin r) = Fin (sqrt r).
Proof. intros Hr. simpl. pose proof (sign_nonneg r Hr). by destruct (sign r). Qed.

Lemma Rpower_one y : Rpower 1 y = 1.
Proof. unfold Rpower. by rewrite ln_1, Rmult_0_r, exp_0. Qed.

Lemma xpow_tenth r : 0 <= r -> xpow (Fin r) (Fin (1 / 10)) = Fin (pow_tenth r).
Proof.
  intros Hr. unfold xpow, is_zero, is_one, pow_tenth.
  destruct (Req_EM_T (1 / 10) 0) as [|_]; [lra|]. simpl.
  destruct (Req_EM_T r 1) as [->|Hne1].
  - destruct (Req_EM_T 1 0) as [|_]; [lra|]. by rewrite Rpower_one.
  - simpl. destruct Hr as [Hr| <-].
    + rewrite sign_pos by done. destruct (Req_EM_T r 0) as [|_]; [lra|done].
    + rewrite sign_zero, sign_pos by lra. by destruct (Req_EM_T 0 0).
Qed.

Lemma xdiv_tenth r : xdiv (Fin r) (Fin (1 / 10)) = Fin (r / (1 / 10)).
Proof. simpl. by rewrite sign_pos by lra. Qed.

Lemma chan_norm_finite r :
  0 <= r -> chan_norm (Fin r) = Fin (pow_tenth r / (1 / 10)).
Proof.
  intros Hr. unfold chan_norm. xreal_ops.
  by rewrite xpow_tenth, xdiv_tenth.
Qed.

Lemma sum_sq_finite (col : list R) (a : R) :
  foldl xadd (Fin a) (fsq <$> (Fin <$> col)) = Fin (foldl (fun a v => a + v * v) a col).
Proof. revert a. induction col as [|v col IH]; intros a; simpl; [done|]. apply IH. Qed.

Lemma sum_sq_nonneg (col : list R) (a : R) :
  0 <= a -> 0 <= foldl (fun a v => a + v * v) a col.
Proof.
  revert a. induction col as [|v col IH]; intros a Ha; simpl; [done|].
  apply IH. nra.
Qed.

Lemma chan_m0_finite (col : list R) : chan_m0 (Fin <$> col) = Fin (real_m0 col).
Proof.
  unfold chan_m0, chan_sum. xreal_ops. rewrite sum_sq_finite.
  rewrite xsqrt_nonneg by (apply sum_sq_nonneg; lra).
  rewrite chan_norm_finite by apply sqrt_pos. done.
Qed.

Lemma sum_sq_scale (k : R) (col : list R) (a : R) :
  foldl (fun a v => a + v * v) (k * k * a) (Rmult k <$> col)
  = k * k * foldl (fun a v => a + v * v) a col.
Proof.
  revert a. induction col as [|v col IH]; intros a; simpl; [done|].
  rewrite <- IH. f_equal. ring.
Qed.

Lemma root_sum_sq_scale (k : R) (col : list R) :
  0 < k -> root_sum_sq (Rmult k <$> col) = k * root_sum_sq col.
Proof.
  intros Hk. unfold root_sum_sq.
  replace 0 with (k * k * 0) at 1 by ring. rewrite sum_sq_scale.
  rewrite sqrt_mult_alt by nra. rewrite sqrt_square by lra. done.
Qed.

Lemma pow_tenth_scale (k r : R) :
  0 < k -> 0 <= r -> pow_tenth (k * r) = Rpower k (1 / 10) * pow_tenth r.
Proof.
  intros Hk Hr. unfold pow_tenth.
  destruct (Req_EM_T r 0) as [->|Hr0].
  - rewrite Rmult_0_r. destruct (Req_EM_T 0 0); [ring|done].
  - destruct (Req_EM_T (k * r) 0) as [Hkr|_]; [nra|].
    symmetry. apply Rpower_mult_distr; lra.
Qed.

Lemma real_m0_scale (k : R) (col : list R) :
  0 < k -> real_m0 (Rmult k <$> col) = Rpower k (1 / 10) * real_m0 col.
Proof.
  intros Hk. unfold real_m0. rewrite root_sum_sq_scale by done.
  rewrite pow_tenth_scale by (done || apply sqrt_pos). field.
Qed.

Lemma l_m0_tall (S : array2 xreal) :
  rect S -> (ncols S <= nrows S)%nat -> l_m0 (KSM1_locals S) = chan_m0 <$> columns S.
Proof.
  intros HS Hle. unfold KSM1_locals, shape. rewrite (orient_tall S Hle). simpl.
  by apply moment0_columns.
Qed.

Lemma columns_finite_array (c : nat) (rs : list (list R)) :
  columns (finite_array c rs) = fmap (fmap (M:=list) Fin) (columns_of c rs).
Proof. apply columns_of_map. Qed.

Lemma rect_finite_array (c : nat) (rs : list (list R)) :
  width c rs -> rect (finite_array c rs).
Proof.
  intros Hrs. unfold rect, width; simpl. apply Forall_fmap.
  eapply Forall_impl; [exact Hrs|]. intros r Hr; simpl. by rewrite length_fmap.
Qed.

Lemma scale_finite_array (k : R) (c : nat) (rs : list (list R)) :
  scale (Fin k) (finite_array c rs) = finite_array c (fmap (fmap (M:=list) (Rmult k)) rs).
Proof.
  unfold scale, amap, finite_array; simpl. f_equal.
  rewrite <- !list_fmap_compose. apply list_fmap_ext. intros _ r _. simpl.
  by rewrite <- !list_fmap_compose.
Qed.

(** The zeroth moments of a window of finite samples, scaled by [k > 0]. *)
Lemma m0_scale (k : R) (c : nat) (rs : list (list R)) :
  0 < k -> width c rs -> (c <= length rs)%nat ->
  l_m0 (KSM1_locals (scale (Fin k) (finite_array c rs)))
  = fmul (Fin (Rpower k (1 / 10))) <$> l_m0 (KSM1_locals (finite_array c rs)).
Proof.
  intros Hk Hrs Hle. rewrite scale_finite_array.
  rewrite !l_m0_tall; try (unfold nrows; simpl; rewrite !length_fmap; exact Hle).
  2: by apply rect_finite_array.
  2:{ apply rect_finite_array. apply Forall_fmap.
      eapply Forall_impl; [exact Hrs|]. intros r Hr; simpl. by rewrite length_fmap. }
  rewrite !columns_finite_array, columns_of_map, <- !list_fmap_compose.
  apply list_fmap_ext. intros _ col _. unfold compose.
  rewrite !chan_m0_finite, real_m0_scale by done. done.
Qed.
End ZerothMoment.


Section ScalingLaw.
Import XReal.
Local Open Scope R_scope.

(** C5, as the code has it: for a window [S] of finite samples with
    [samples >= channels] and a factor [k > 0], the zeroth moment [m0] that
    [KSM1] computes on [k * S], before log(abs(.)), is [k^0.1] times the
    one it computes on [S]: the sum of squares grows by [k^2], its square
    root by [k], and the power [.1] of that by [k^0.1]. *)
Theorem m0_scaling (k : R) (c : nat) (rs : list (list R)) :
  let S := finite_array c rs in
  0 < k -> rect S -> (ncols S <= nrows S)%nat ->
  l_m0 (KSM1_locals S) = (fun col => Fin (real_m0 col)) <$> columns_of c rs
  /\ l_m0 (KSM1_locals (scale (Fin k) S))
     = fmul (Fin (Rpower k (1 / 10))) <$> l_m0 (KSM1_locals S).
Proof.
  intros S Hk HS Hle.
  assert (Hrs : width c rs).
  { unfold S, rect, width in HS; simpl in HS. apply Forall_fmap in HS.
    eapply Forall_impl; [exact HS|]. intros r Hr; simpl in Hr. by rewrite length_fmap in Hr. }
  assert (Hle' : (c <= length rs)%nat).
  { unfold S, nrows in Hle; simpl in Hle. by rewrite length_fmap in Hle. }
  split; [|by apply m0_scale].
  rewrite l_m0_tall by done. unfold S. rewrite columns_finite_array, <- list_fmap_compose.
  apply list_fmap_ext. intros _ col _. apply chan_m0_finite.
Qed.

Lemma Rpower_1024_tenth : Rpower 1024 (1 / 10) = 2.
Proof.
  replace 1024 with (Rpower 2 (INR 10)) by (rewrite Rpower_pow by lra; simpl; lra).
  rewrite Rpower_mult. replace (INR 10 * (1 / 10)) with 1 by (simpl; lra).
  apply Rpower_1. lra.
Qed.

Lemma Rpower_1024_fifth : Rpower 1024 (2 / 10) = 4.
Proof.
  replace 1024 with (Rpower 2 (INR 10)) by (rewrite Rpower_pow by lra; simpl; lra).
  rewrite Rpower_mult. replace (INR 10 * (2 / 10)) with (INR 2) by (simpl; lra).
  rewrite Rpower_pow by lra. simpl. lra.
Qed.

Lemma real_m0_unit : real_m0 [1] = 10.
Proof.
  unfold real_m0, root_sum_sq; simpl. replace (0 + 1 * 1) with 1 by ring.
  rewrite sqrt_1. unfold pow_tenth. destruct (Req_EM_T 1 0) as [|_]; [lra|].
  rewrite Rpower_one. lra.
Qed.

(** The window [[1]] and the factor [1024]: [m0] goes from 10 to 20, and
    [1024^0.2] is 4. *)
Lemma m0_scaling_fifth_fails :
  let S := finite_array 1 [[1]] in
  0 < 1024 /\ rect S /\ (ncols S <= nrows S)%nat
  /\ l_m0 (KSM1_locals S) = [Fin 10]
  /\ l_m0 (KSM1_locals (scale (Fin 1024) S)) = [Fin 20]
  /\ fmul (Fin (Rpower 1024 (2 / 10))) <$> l_m0 (KSM1_locals S) = [Fin 40]
  /\ l_m0 (KSM1_locals (scale (Fin 1024) S))
     <> fmul (Fin (Rpower 1024 (2 / 10))) <$> l_m0 (KSM1_locals S).
Proof.
  intros S.
  assert (HS : rect S) by (by repeat constructor).
  assert (Hle : (ncols S <= nrows S)%nat) by (unfold S, nrows; simpl; lia).
  assert (H1 : l_m0 (KSM1_locals S) = [Fin 10]).
  { rewrite l_m0_tall by done. unfold S. rewrite columns_finite_array.
    change (columns_of 1 [[1]]) with [[1]]. rewrite <- list_fmap_compose.
    cbn [fmap list_fmap compose]. change ([Fin 1]) with (Fin <$> [1]).
    by rewrite chan_m0_finite, real_m0_unit. }
  assert (H2 : l_m0 (KSM1_locals (scale (Fin 1024) S)) = [Fin 20]).
  { unfold S. rewrite m0_scale by (lra || (by repeat constructor)).
    fold S. rewrite H1. simpl. rewrite Rpower_1024_tenth. do 2 f_equal; lra. }
  assert (H3 : fmul (Fin (Rpower 1024 (2 / 10))) <$> l_m0 (KSM1_locals S) = [Fin 40]).
  { rewrite H1. simpl. rewrite Rpower_1024_fifth. do 2 f_equal; lra. }
  split; [lra|]. do 5 (split; [done|]).
  rewrite H2, H3. intros Heq. inversion Heq. lra.
Qed.
End ScalingLaw.


(** ** Values: a constant channel *)

Section ConstantChannel.
Import XReal.
Local Open Scope R_scope.

Lemma xsub_diag (a : R) : xsub (Fin a) (Fin a) = Fin 0.
Proof. unfold xsub; simpl. f_equal. ring. Qed.

Lemma rect_constant_window (n : nat) (c : R) : rect (constant_window n c).
Proof. by apply width_replicate. Qed.

Lemma columns_constant_window (n : nat) (c : R) :
  columns (constant_window n c) = [replicate n (Fin c)].
Proof.
  unfold columns; simpl. induction n as [|n IH]; [done|].
  cbn [replicate]. rewrite columns_of_cons, IH. done.
Qed.

Lemma np_diff0_constant_window (n : nat) (c : R) :
  np_diff0 (constant_window n c) = constant_window (n - 1) 0.
Proof.
  unfold np_diff0, constant_window, nrows; simpl. f_equal.
  rewrite length_replicate, drop_replicate, take_replicate.
  replace ((n - 1) `min` n)%nat with (n - 1)%nat by lia.
  rewrite zip_with_replicate. cbn [zip_with]. xreal_ops. by rewrite xsub_diag.
Qed.

Lemma deriv_constant_window (m : nat) (c : R) :
  deriv 1 (constant_window (S m) c) = constant_window m 0.
Proof.
  unfold deriv. rewrite np_diff0_constant_window.
  replace (S m - 1)%nat with m by lia.
  change (np_concatenate0 (np_zeros 1 1) (constant_window m 0))
    with (constant_window (S m) 0).
  rewrite np_diff0_constant_window. by replace (S m - 1)%nat with m by lia.
Qed.

Lemma chan_sum_zeros (m : nat) : chan_sum (replicate m (Fin 0)) = Fin 0.
Proof.
  unfold chan_sum. xreal_ops. induction m as [|m IH]; simpl; [done|].
  by rewrite Rplus_0_r.
Qed.

Lemma chan_mhi_zeros (n m : nat) : (2 <= n)%nat -> chan_mhi n (replicate m (Fin 0)) = Fin 0.
Proof.
  intros Hn. unfold chan_mhi. rewrite fmap_replicate.
  replace (fsq (Fin 0)) with (Fin 0) by (unfold fsq; simpl; f_equal; ring).
  rewrite chan_sum_zeros. xreal_ops.
  assert (Hpos : 0 < IZR (Z.of_nat n - 1)) by (apply IZR_lt; lia).
  unfold xdiv. rewrite (sign_pos _ Hpos).
  replace (0 / IZR (Z.of_nat n - 1)) with 0 by (field; lra).
  rewrite xsqrt_nonneg, sqrt_0 by lra.
  change (chan_norm (Fin 0) = Fin 0). rewrite chan_norm_finite by lra.
  unfold pow_tenth. destruct (Req_EM_T 0 0) as [_|]; [|done]. f_equal. field.
Qed.

Lemma sum_sq_ge (col : list R) (a : R) : a <= foldl (fun a v => a + v * v) a col.
Proof.
  revert a. induction col as [|v col IH]; intros a; simpl; [lra|].
  eapply Rle_trans; [|apply IH]. nra.
Qed.

Lemma real_m0_constant_pos (n : nat) (c : R) :
  (1 <= n)%nat -> c <> 0 -> 0 < real_m0 (replicate n c).
Proof.
  intros Hn Hc. destruct n as [|n]; [lia|].
  assert (Hroot : 0 < root_sum_sq (replicate (S n) c)).
  { unfold root_sum_sq. apply sqrt_lt_R0. simpl.
    eapply Rlt_le_trans; [|apply sum_sq_ge]. nra. }
  unfold real_m0, pow_tenth.
  destruct (Req_EM_T (root_sum_sq (replicate (S n) c)) 0) as [|_]; [lra|].
  apply Rdiv_lt_0_compat; [apply exp_pos|lra].
Qed.

Lemma sparseness_value (M : R) :
  0 < M ->
  fdiv (Fin M) (fsqrt (fabs (fmul (fsub (Fin M) (Fin 0)) (fsub (Fin M) (Fin 0))))) = Fin 1.
Proof.
  intros HM. xreal_ops. unfold xsub; simpl xneg; simpl xadd; simpl xmul; simpl xabs.
  replace (Rabs ((M + - 0) * (M + - 0))) with (M * M)
    by (rewrite Rabs_right by nra; ring).
  rewrite xsqrt_nonneg by nra. rewrite sqrt_square by lra.
  unfold xdiv. rewrite sign_pos by done. f_equal. field. lra.
Qed.

Lemma IRF_value (M : R) : fdiv (Fin 0) (fsqrt (fmul (Fin M) (Fin 0))) = NaN.
Proof.
  xreal_ops. simpl xmul. rewrite Rmult_0_r, xsqrt_nonneg, sqrt_0 by lra.
  unfold xdiv. by rewrite sign_zero.
Qed.

Lemma WLR_value : fdiv (Fin 0) (Fin 0) = NaN.
Proof. xreal_ops. unfold xdiv. by rewrite sign_zero. Qed.

Lemma abs_sum_zeros (m : nat) :
  np_sum0 (amap fabs (constant_window m 0)) = [Fin 0].
Proof.
  rewrite abs_sum_columns by apply rect_constant_window.
  rewrite columns_constant_window. cbn [fmap list_fmap]. rewrite fmap_replicate.
  replace (fabs (Fin 0)) with (Fin 0) by (simpl; by rewrite Rabs_R0).
  by rewrite chan_sum_zeros.
Qed.

Lemma moment_hi_zeros (n m : nat) :
  (2 <= n)%nat -> moment_hi n (constant_window m 0) = [Fin 0].
Proof.
  intros Hn. rewrite moment_hi_columns by apply rect_constant_window.
  rewrite columns_constant_window. cbn [fmap list_fmap]. by rewrite chan_mhi_zeros.
Qed.

(** The local variables of [KSM1] on [n >= 3] samples of one channel, all
    equal to [c <> 0]. *)
Lemma constant_window_locals (n : nat) (c : R) :
  (3 <= n)%nat -> c <> 0 ->
  KSM1_locals (constant_window n c)
  = Locals (constant_window n c) n 1 [Fin (real_m0 (replicate n c))]
      (constant_window (n - 1) 0) (constant_window (n - 2) 0)
      [Fin 0] [Fin 0] [Fin 1] [NaN] [NaN].
Proof.
  intros Hn Hc.
  assert (Hm0 : normalise (m0_root (constant_window n c))
                = [Fin (real_m0 (replicate n c))]).
  { rewrite moment0_columns by apply rect_constant_window.
    rewrite columns_constant_window. cbn [fmap list_fmap].
    by rewrite <- (fmap_replicate Fin), chan_m0_finite. }
  unfold KSM1_locals, shape.
  rewrite orient_tall by (unfold nrows; simpl; rewrite length_replicate; lia).
  replace (nrows (constant_window n c)) with n
    by (unfold nrows; simpl; by rewrite length_replicate).
  change (ncols (constant_window n c)) with 1%nat. cbv zeta.
  destruct n as [|[|n]]; [lia|lia|].
  rewrite !deriv_constant_window.
  replace (S (S n) - 1)%nat with (S n) by lia. replace (S (S n) - 2)%nat with n by lia.
  rewrite Hm0, !moment_hi_zeros, !abs_sum_zeros by lia.
  cbn [zip_with fmap list_fmap].
  rewrite sparseness_value by (apply real_m0_constant_pos; [lia|done]).
  by rewrite IRF_value, WLR_value.
Qed.
Lemma sum_sq_replicate (n : nat) (c a : R) :
  foldl (fun a v => a + v * v) a (replicate n c) = a + INR n * (c * c).
Proof.
  revert a. induction n as [|n IH]; intros a.
  - simpl. lra.
  - cbn [replicate foldl]. rewrite IH, S_INR. lra.
Qed.

Lemma sum_sq_constant_window (n : nat) (c : R) :
  np_sum0 (amap fsq (constant_window n c)) = [Fin (INR n * (c * c))].
Proof.
  rewrite np_sum0_columns by apply rect_amap, rect_constant_window.
  rewrite columns_amap, columns_constant_window. cbn [fmap list_fmap].
  unfold chan_sum. xreal_ops. rewrite <- (fmap_replicate Fin), sum_sq_finite.
  rewrite sum_sq_replicate. do 2 f_equal. lra.
Qed.

Lemma Rpower_tenth_of_pow (x : R) : 0 < x -> Rpower (x ^ 10) (1 / 10) = x.
Proof.
  intros Hx. rewrite <- (Rpower_pow 10 x Hx), Rpower_mult.
  replace (INR 10 * (1 / 10)) with 1 by (simpl; lra). by apply Rpower_1.
Qed.

(** The sum of the squares and [m0] for [n] samples equal to [c], inside the
    band: both lie well inside the range of the normal float64 numbers. *)
Lemma constant_channel_range (n : nat) (c : R) :
  (3 <= Z.of_nat n <= 10 ^ 6)%Z -> 1e-150 <= Rabs c <= 1e150 ->
  1e-300 <= INR n * (c * c) <= 1e306
  /\ 1e-14 <= real_m0 (replicate n c) <= 1e17.
Proof.
  intros [Hn3 Hn6] [Hlo Hhi].
  assert (Hn : 3 <= INR n <= 1e6).
  { rewrite INR_IZR_INZ. split; [by apply (IZR_le 3)|].
    replace 1e6 with (IZR (10 ^ 6)) by (simpl; lra). by apply IZR_le. }
  assert (Hcc : c * c = Rabs c * Rabs c).
  { unfold Rabs. destruct (Rcase_abs c); lra. }
  assert (Hsq : 1e-300 <= c * c <= 1e300) by (rewrite Hcc; split; nra).
  assert (Hs : 1e-300 <= INR n * (c * c) <= 1e306) by (split; nra).
  split; [exact Hs|].
  unfold real_m0, root_sum_sq. rewrite sum_sq_replicate, Rplus_0_l.
  set (s := INR n * (c * c)) in *.
  assert (Hroot : 1e-150 <= sqrt s <= 1e153).
  { split.
    - rewrite <- (sqrt_square 1e-150) by lra. apply sqrt_le_1_alt. lra.
    - rewrite <- (sqrt_square 1e153) by lra. apply sqrt_le_1_alt. lra. }
  unfold pow_tenth. destruct (Req_EM_T (sqrt s) 0) as [|_]; [lra|].
  assert (Hp : 1e-15 <= Rpower (sqrt s) (1 / 10) <= 1e16).
  { split.
    - rewrite <- (Rpower_tenth_of_pow 1e-15) by lra.
      apply Rle_Rpower_l; [lra|]. split; [apply pow_lt; lra|lra].
    - rewrite <- (Rpower_tenth_of_pow 1e16) by lra.
      apply Rle_Rpower_l; lra. }
  split; lra.
Qed.
End ConstantChannel.


Section ConstantChannelClaim.
Import XReal.
Local Open Scope R_scope.

Lemma logabs_pos (M : R) : 0 < M -> logabs (Fin M) = Fin (ln M).
Proof.
  intros HM. unfold logabs. xreal_ops. simpl xabs. rewrite Rabs_right by lra.
  unfold xlog. by rewrite sign_pos.
Qed.

Lemma logabs_NaN : logabs NaN = NaN.
Proof. done. Qed.

(** The output of [KSM1] on a constant channel: the sparseness entry is
    [log |1|], the last two entries are NaN. *)
Lemma KSM1_constant_window (n : nat) (c : R) :
  (3 <= n)%nat -> c <> 0 ->
  let M := real_m0 (replicate n c) in
  0 < M
  /\ KSM1 (constant_window n c) = [Fin (ln M); Fin (ln M); Fin (ln M); Fin 0; NaN; NaN].
Proof.
  intros Hn Hc M.
  assert (HM : 0 < M) by (apply real_m0_constant_pos; [lia|done]).
  split; [done|]. unfold KSM1. rewrite constant_window_locals by done.
  cbn [l_m0 l_m2 l_m4 l_sparsi l_IRF l_WLR zip_with app fmap list_fmap]. fold M.
  replace (fsub (Fin M) (Fin 0)) with (Fin M)
    by (xreal_ops; unfold xsub; simpl; f_equal; ring).
  rewrite !logabs_pos, logabs_NaN, ln_1 by lra. done.
Qed.

(** C7, as the code has it, for a float64 window and in exact real
    arithmetic: on [n] samples of one channel, [3 <= n <= 10^6], all equal to
    [c] with [1e-150 <= |c| <= 1e150], [KSM1] has [d1 = 0] and [d2 = 0]
    everywhere, so [m2 = 0] and [m4 = 0]; the sum of the squares lies between
    [1e-300] and [1e306] and [m0] between [1e-14] and [1e17], inside the range
    of the normal float64 numbers, which the arithmetic of [xreal] does not
    bound by itself; the irregularity factor and the waveform-length ratio
    are 0/0, and their entries of the output are NaN; the sparseness is
    [m0 / sqrt(|m0 * m0|) = 1], and its entry is [log 1 = 0], not NaN.
    [KSM1] returns this vector of six entries. *)
Theorem KSM1_constant_channel (n : nat) (c : R) :
  let S := constant_window n c in
  let L := KSM1_locals S in
  (3 <= Z.of_nat n <= 10 ^ 6)%Z -> 1e-150 <= Rabs c <= 1e150 ->
  rows (l_d1 L) = replicate (n - 1) [Fin 0]
  /\ rows (l_d2 L) = replicate (n - 2) [Fin 0]
  /\ l_m2 L = [Fin 0] /\ l_m4 L = [Fin 0]
  /\ (exists s M, np_sum0 (amap fsq S) = [Fin s] /\ 1e-300 <= s <= 1e306
                  /\ l_m0 L = [Fin M] /\ 1e-14 <= M <= 1e17)
  /\ l_sparsi L = [Fin 1] /\ l_IRF L = [NaN] /\ l_WLR L = [NaN]
  /\ length (KSM1 S) = 6%nat
  /\ KSM1 S !! 3%nat = Some (Fin 0)
  /\ KSM1 S !! 4%nat = Some NaN
  /\ KSM1 S !! 5%nat = Some NaN.
Proof.
  intros S L Hn Hband. unfold L, S.
  assert (Hn3 : (3 <= n)%nat) by lia.
  assert (Hc : c <> 0) by (intros ->; rewrite Rabs_R0 in Hband; lra).
  destruct (constant_channel_range n c Hn Hband) as (Hs & HM).
  destruct (KSM1_constant_window n c Hn3 Hc) as (_ & ->).
  rewrite constant_window_locals by done.
  cbn [l_d1 l_d2 l_m0 l_m2 l_m4 l_sparsi l_IRF l_WLR rows constant_window].
  do 4 (split; [done|]). split.
  - exists (INR n * (c * c)), (real_m0 (replicate n c)).
    by rewrite sum_sq_constant_window.
  - by repeat split.
Qed.

(** Three samples equal to 1: the sparseness entry of the output is 0. *)
Lemma sparseness_entry_not_NaN :
  let S := constant_window 3 1 in
  shape S = (3%nat, 1%nat) /\ rows S = [[Fin 1]; [Fin 1]; [Fin 1]] /\ 1 <> 0
  /\ l_sparsi (KSM1_locals S) = [Fin 1]
  /\ KSM1 S !! 3%nat = Some (Fin 0)
  /\ KSM1 S !! 3%nat <> Some NaN.
Proof.
  intros S. unfold S.
  destruct (KSM1_constant_window 3 1 ltac:(lia) ltac:(lra)) as (_ & ->).
  rewrite constant_window_locals by (lia || lra). simpl.
  repeat split; try done; lra.
Qed.
End ConstantChannelClaim.


(** ** The results on concrete inputs *)

(** Closes a side condition on a concrete input by evaluation. *)
Ltac evaluated :=
  first [ by repeat constructor
        | lra
        | lia
        | simpl; lia
        | unfold numwin_of, nrows in *; simpl in *; Z.to_euclidean_division_equations; lia ].

Section Examples.
Local Open Scope R_scope.

(** Four samples of one channel, windows of two samples, one step back. *)
Lemma fused_rows_example :
  let x := finite_array 1 [[1]; [2]; [3]; [4]] in
  exists feat,
    getfTDDfeat_v2 (Arr2 x) 1 2 1 = Ok feat
    /\ rows feat !! 0%nat = Some (fused_row x 1 2 1 0)
    /\ rows feat !! 1%nat = Some (fused_row x 1 2 1 1).
Proof.
  intros x.
  destruct (getfTDDfeat_v2_fused_rows x 1 2 1) as (feat & Hrun & Hrow);
    [subst x; evaluated..|].
  exists feat. split; [exact Hrun|]. split.
  - apply (Hrow 0%nat). subst x. evaluated.
  - apply (Hrow 1%nat). subst x. evaluated.
Defined.

(** Three samples of two channels and windows of one sample: the window is
    wider than long, [KSM1] transposes it and returns 6 entries, and the
    assignment to a row of 12 entries raises. *)
Lemma wide_window_raises :
  let x := finite_array 2 [[1; 2]; [3; 4]; [5; 6]] in
  rect x
  /\ (1 <= Z.of_nat (nrows x))%Z
  /\ (1 <= 1 < numwin_of (nrows x) 1 1)%Z
  /\ (1 <= 1)%Z
  /\ length (KSM1 (row_slice 0 1 x)) = 6%nat
  /\ getfTDDfeat_v2 (Arr2 x) 1 1 1 = Raise ValueError
  /\ ~ exists feat, getfTDDfeat_v2 (Arr2 x) 1 1 1 = Ok feat.
Proof.
  intros x.
  assert (Hrun : getfTDDfeat_v2 (Arr2 x) 1 1 1 = Raise ValueError) by reflexivity.
  do 4 (split; [subst x; evaluated|]).
  split; [reflexivity|]. split; [exact Hrun|].
  intros [feat Hfeat]. rewrite Hrun in Hfeat. discriminate.
Qed.

Lemma shape_example :
  let x := finite_array 2 [[1; 2]; [3; 4]; [5; 6]; [7; 8]] in
  exists feat,
    getfTDDfeat_v2 (Arr2 x) 1 3 1 = Ok feat /\ shape feat = (1%nat, 12%nat).
Proof.
  intros x.
  destruct (getfTDDfeat_v2_shape x 1 3 1) as (feat & Hrun & _ & Hrows & Hcols);
    [subst x; evaluated..|].
  exists feat. split; [exact Hrun|]. unfold shape. f_equal; [|exact Hcols].
  clear Hrun. subst x. evaluated.
Defined.

(** Four samples of three channels and windows of two samples. *)
Lemma wide_window_no_shape :
  let x := finite_array 3 [[1; 2; 3]; [4; 5; 6]; [7; 8; 9]; [1; 3; 5]] in
  rect x
  /\ shape x = (4%nat, 3%nat)
  /\ (2 <= Z.of_nat (nrows x))%Z
  /\ (1 <= 2 <= numwin_of (nrows x) 2 1)%Z
  /\ (1 <= 1)%Z
  /\ getfTDDfeat_v2 (Arr2 x) 2 2 1 = Raise ValueError
  /\ ~ exists feat, getfTDDfeat_v2 (Arr2 x) 2 2 1 = Ok feat.
Proof.
  intros x.
  assert (Hrun : getfTDDfeat_v2 (Arr2 x) 2 2 1 = Raise ValueError) by reflexivity.
  split; [subst x; evaluated|]. split; [done|].
  do 3 (split; [subst x; evaluated|]).
  split; [exact Hrun|].
  intros [feat Hfeat]. rewrite Hrun in Hfeat. discriminate.
Qed.

Lemma moment_major_example :
  let S := finite_array 2 [[1; 2]; [3; 5]; [4; 1]] in
  length (KSM1 S) = 12%nat
  /\ KSM1 S !! 7%nat = Some (logabs (chan_sparseness [Fin 2; Fin 5; Fin 1])).
Proof.
  intros S.
  destruct (KSM1_moment_major S) as (Hlen & _ & Hent); [subst S; evaluated..|].
  split; [exact Hlen|].
  destruct (Hent 1%nat ltac:(simpl; lia)) as (col & Hcol & _ & Hq).
  injection Hcol as <-. exact (Hq 3%nat chan_sparseness eq_refl).
Defined.

Lemma derivative_rows_example :
  let S := finite_array 1 [[1]; [2]; [4]; [8]] in
  nrows (l_d1 (KSM1_locals S)) = 3%nat /\ nrows (l_d2 (KSM1_locals S)) = 2%nat.
Proof.
  intros S.
  destruct (KSM1_derivative_rows S) as (_ & H1 & H2); [subst S; evaluated..|].
  subst S. evaluated.
Defined.

(** Three samples of one channel: [d1] has two rows, [d2] has one. *)
Lemma derivative_rows_differ :
  let S := finite_array 1 [[1]; [2]; [4]] in
  let L := KSM1_locals S in
  (3 <= nrows S)%nat /\ (ncols S <= nrows S)%nat
  /\ nrows (l_d1 L) = 2%nat /\ nrows (l_d1 L) <> nrows S
  /\ nrows (l_d2 L) = 1%nat /\ nrows (l_d2 L) <> nrows (l_d1 L).
Proof.
  intros S L. subst L S. repeat split; try reflexivity; lazy; lia.
Qed.

Lemma scaling_example :
  let S := finite_array 1 [[3]; [4]] in
  l_m0 (KSM1_locals (scale (Fin 2) S))
  = fmul (Fin (Rpower 2 (1 / 10))) <$> l_m0 (KSM1_locals S).
Proof.
  intros S. apply (m0_scaling 2 1 [[3]; [4]]); evaluated.
Defined.

Lemma transposed_example :
  let S := finite_array 2 [[1; 2]; [3; 5]; [4; 1]] in
  shape (np_transpose S) = (2%nat, 3%nat) /\ KSM1 (np_transpose S) = KSM1 S.
Proof.
  intros S. split; [done|]. apply KSM1_transposed; subst S; evaluated.
Defined.

Lemma constant_channel_example :
  KSM1 (constant_window 4 2) !! 3%nat = Some (Fin 0)
  /\ KSM1 (constant_window 4 2) !! 4%nat = Some NaN.
Proof.
  destruct (KSM1_constant_channel 4 2)
    as (_ & _ & _ & _ & _ & _ & _ & _ & _ & H3 & H4 & _).
  - lia.
  - rewrite Rabs_right by lra. lra.
  - by split.
Defined.

Lemma one_dimensional_example :
  let v := [Fin 1; Fin 2; Fin 3; Fin 4] in
  getfTDDfeat_v2 (Arr1 v) 1 2 1 = getfTDDfeat_v2 (Arr2 (newaxis v)) 1 2 1
  /\ exists feat, getfTDDfeat_v2 (Arr1 v) 1 2 1 = Ok feat /\ shape feat = (2%nat, 6%nat).
Proof.
  intros v.
  destruct (getfTDDfeat_v2_1d v 1 2 1)
    as (_ & _ & Heq & feat & Hrun & _ & Hrows & Hcols); [subst v; evaluated..|].
  split; [exact Heq|]. exists feat. split; [exact Hrun|]. unfold shape.
  f_equal; [|exact Hcols]. clear Hrun Heq. subst v. evaluated.
Defined.

Lemma bounds_example :
  let x := finite_array 1 [[1]; [2]; [3]; [4]] in
  bounds_at 1 2 1 1 = (2, 4)%Z /\ nrows (row_slice 2 4 x) = 2%nat.
Proof.
  intros x.
  destruct (window_bounds_in_range x 1 2 1) with (i := 1%nat)
    as (_ & Hst & Hen & _ & _ & _ & _ & Hn & _); [subst x; evaluated..|].
  split; [|done]. apply injective_projections; simpl; lia.
Defined.

Lemma no_window_example :
  let x := Arr2 (finite_array 1 [[1]; [2]]) in
  getfTDDfeat_v2 x 2 1 1 = Ok (Array2 6 []).
Proof.
  intros x.
  destruct (getfTDDfeat_v2_no_window x 2 1 1) as (_ & _ & Hrun & _);
    [subst x; evaluated..|].
  exact Hrun.
Defined.
End Examples.


(** * Further properties *)

(** ** The moment extractor on any window *)

Section KSM1Further.
Context {F : Type} `{Float64 F}.
Implicit Types (S a : array2 F).

Lemma orient_wide S : rect S -> nrows S < ncols S -> orient S = np_transpose S.
Proof. intros HS Hlt. unfold orient, shape. by rewrite decide_True. Qed.

(** [KSM1] returns six numbers for each entry of the shorter axis of the
    window: the guard makes the longer axis the axis of the samples. *)
Theorem KSM1_length S :
  rect S -> length (KSM1 S) = 6 * (nrows S `min` ncols S).
Proof.
  intros HS. rewrite length_KSM1 by done.
  destruct (decide (nrows S < ncols S)) as [Hlt|Hge].
  - rewrite orient_wide by done. simpl. lia.
  - rewrite orient_tall by lia. lia.
Qed.

(** A window with more columns than rows is read the other way round: its
    rows are taken as the channels, and the output is the stack of the six
    quantities of each row. *)
Theorem KSM1_wide S :
  rect S -> nrows S < ncols S ->
  KSM1 S = logabs <$> mjoin ((fun q => q <$> rows S) <$> chan_quantities)
  /\ length (KSM1 S) = 6 * nrows S.
Proof.
  intros HS Hlt. split.
  - rewrite KSM1_columns, orient_wide by done.
    unfold columns at 1, np_transpose, nrows; simpl. unfold columns.
    by rewrite columns_of_involutive.
  - rewrite length_KSM1, orient_wide by done. done.
Qed.

(** [d1] is not the first difference of [S]: its first row is
    [S[1] - S[0]], less the zero row, and every later row is the difference of
    two successive first differences, [(S[i+2] - S[i+1]) - (S[i+1] - S[i])]. *)
Theorem KSM1_d1_rows S (r0 r1 : list F) :
  let L := KSM1_locals S in
  ncols S <= nrows S -> rows S !! 0 = Some r0 -> rows S !! 1 = Some r1 ->
  rows (l_d1 L) !! 0
  = Some (zip_with fsub (zip_with fsub r1 r0) (replicate (ncols S) (of_int 0)))
  /\ forall (i : nat) (p q r : list F),
       rows S !! i = Some p -> rows S !! (i + 1) = Some q -> rows S !! (i + 2) = Some r ->
       rows (l_d1 L) !! (i + 1)
       = Some (zip_with fsub (zip_with fsub r q) (zip_with fsub q p)).
Proof.
  intros L Hle H0 H1. unfold L, KSM1_locals, shape. rewrite (orient_tall S Hle). simpl.
  unfold nrows. simpl. rewrite !length_zip_with, length_drop, length_take.
  set (rs := rows S) in *.
  assert (Hd : forall (i : nat) (p q : list F),
             rs !! i = Some p -> rs !! (i + 1) = Some q ->
             zip_with (zip_with fsub) (drop 1 rs) (take (length rs - 1) rs) !! i
             = Some (zip_with fsub q p)).
  { intros i p q Hp Hq. rewrite lookup_zip_with, lookup_drop.
    replace (1 + i) with (i + 1) by lia. rewrite Hq. simpl.
    rewrite lookup_take_lt by (apply lookup_lt_Some in Hq; lia). by rewrite Hp. }
  split.
  - pose proof (lookup_lt_Some _ _ _ H1) as Hlen.
    rewrite lookup_zip_with. simpl. rewrite drop_0, (Hd 0 r0 r1 H0 H1). simpl.
    rewrite lookup_take_lt by lia. done.
  - intros i p q r Hp Hq Hr. pose proof (lookup_lt_Some _ _ _ Hr) as Hlen.
    rewrite lookup_zip_with. simpl. rewrite drop_0.
    rewrite (Hd (i + 1) q r Hq) by (by replace (i + 1 + 1) with (i + 2) by lia). simpl.
    rewrite lookup_take_lt by lia.
    replace (i + 1) with (Datatypes.S i) by lia. simpl.
    rewrite (Hd i p q Hp Hq). done.
Qed.
End KSM1Further.


(** ** The driver outside its intended use *)

Section DriverFurther.
Context {F : Type} `{Float64 F}.
Implicit Types (x w : array2 F) (s : state F).

Lemma for_each_raise (f : nat -> state F -> result (state F)) (i : nat) (idx : list nat)
    s (e : exn) :
  f i s = Raise e -> for_each f (i :: idx) s = Raise e.
Proof. intros Hf. simpl. by rewrite Hf. Qed.

Lemma nonlinear_shape w : nrows (nonlinear w) = nrows w /\ ncols (nonlinear w) = ncols w.
Proof. unfold nonlinear, amap, nrows; simpl. by rewrite length_fmap. Qed.

(** One pass through the body when both windows lie inside [x] and are wider
    than long: [KSM1] returns [6 * winsize] values, which do not fit a row of
    [6 * Nsignals] entries. *)
Lemma body_wide x (steps winsize wininc : Z) (i : nat) s :
  rect x ->
  (0 <= st s - steps * wininc)%Z -> (0 <= steps * wininc)%Z ->
  en s = (st s + winsize)%Z -> (en s <= Z.of_nat (nrows x))%Z ->
  (0 <= winsize < Z.of_nat (ncols x))%Z ->
  i < nrows (feat s) -> ncols (feat s) = ncols x * 6 ->
  body x steps wininc i s = Raise ValueError.
Proof.
  intros Hx Hlo Hsw Hen Hhi Hwide Hi Hcols. unfold body.
  set (lagwin := row_slice (st s - steps * wininc) (en s - steps * wininc) x).
  set (curwin := row_slice (st s) (en s) x).
  assert (Hrl : rect lagwin) by (by apply rect_row_slice).
  assert (Hrc : rect curwin) by (by apply rect_row_slice).
  assert (Hnl : nrows lagwin = Z.to_nat winsize).
  { unfold lagwin. rewrite nrows_row_slice by lia. f_equal. lia. }
  assert (Hnc : nrows curwin = Z.to_nat winsize).
  { unfold curwin. rewrite nrows_row_slice by lia. f_equal. lia. }
  assert (Hlen : forall w, rect w -> nrows w = Z.to_nat winsize -> ncols w = ncols x ->
                   length (KSM1 w) = 6 * Z.to_nat winsize
                   /\ length (KSM1 (nonlinear w)) = 6 * Z.to_nat winsize).
  { intros w Hw Hn Hc. destruct (nonlinear_shape w) as [Hn' Hc'].
    rewrite !KSM1_length by (done || by apply rect_amap). rewrite Hn', Hc', Hn, Hc. lia. }
  destruct (Hlen lagwin Hrl Hnl eq_refl) as [Hl1 Hl2].
  destruct (Hlen curwin Hrc Hnc eq_refl) as [Hc1 Hc2].
  rewrite !correlation_same by lia. simpl.
  repeat (rewrite broadcast2_same by (rewrite ?length_zip_with; lia); simpl).
  set (v := zip_with fmul _ _).
  assert (Hv : length v = 6 * Z.to_nat winsize)
    by (unfold v; rewrite ?length_zip_with; lia).
  unfold assign_row. rewrite decide_False by lia. rewrite decide_False by lia.
  destruct v as [|a [|b v']]; simpl in *; [done|lia|done].
Qed.

(** With at least one window to emit, the call returns a matrix exactly when
    the input has no more channels than a window has samples; otherwise the
    first assignment to a row raises [ValueError]. *)
Theorem getfTDDfeat_v2_returns_iff x (steps winsize wininc : Z) :
  let datasize := nrows x in
  let Nsignals := ncols x in
  let numwin := numwin_of datasize winsize wininc in
  rect x -> (1 <= wininc)%Z -> (0 <= winsize <= Z.of_nat datasize)%Z ->
  (0 <= steps < numwin)%Z ->
  ((Z.of_nat Nsignals <= winsize)%Z ->
     exists feat, getfTDDfeat_v2 (Arr2 x) steps winsize wininc = Ok feat)
  /\ ((winsize < Z.of_nat Nsignals)%Z ->
        getfTDDfeat_v2 (Arr2 x) steps winsize wininc = Raise ValueError).
Proof.
  intros datasize Nsignals numwin Hx Hinc Hsize Hsteps.
  subst datasize Nsignals numwin. split.
  - intros Hfit.
    destruct (getfTDDfeat_v2_rows (Arr2 x) steps winsize wininc Hx Hinc)
      as (feat & Hrun & _); [simpl; lia|done|].
    by exists feat.
  - intros Hwide. unfold getfTDDfeat_v2. simpl as_columns.
    rewrite decide_False by lia. rewrite decide_False by lia. unfold range.
    destruct (Z.to_nat (numwin_of (nrows x) winsize wininc - steps)) as [|n] eqn:Hn; [lia|].
    simpl seq. erewrite for_each_raise; [done|].
    pose proof (window_in_range (nrows x) steps winsize wininc 0 Hinc ltac:(lia)) as Hhi.
    assert (0 <= steps * wininc)%Z by nia.
    apply (body_wide x steps winsize wininc 0 _ Hx); simpl; try lia.
    rewrite nrows_zeros. lia.
Qed.


(** [numwin] counts exactly the windows that fit into the data: the last of
    them ends inside the data, and one more stride would not. *)
Theorem numwin_of_maximal (datasize : nat) (winsize wininc : Z) :
  let numwin := numwin_of datasize winsize wininc in
  (1 <= wininc)%Z -> (winsize <= Z.of_nat datasize)%Z ->
  (1 <= numwin)%Z
  /\ ((numwin - 1) * wininc + winsize <= Z.of_nat datasize)%Z
  /\ (Z.of_nat datasize < numwin * wininc + winsize)%Z.
Proof.
  intros numwin Hinc Hsize. unfold numwin, numwin_of.
  pose proof (Z.div_mod (Z.of_nat datasize - winsize) wininc ltac:(lia)) as Hdm.
  pose proof (Z.mod_pos_bound (Z.of_nat datasize - winsize) wininc ltac:(lia)) as Hm.
  assert (0 <= (Z.of_nat datasize - winsize) / wininc)%Z by (apply Z.div_pos; lia).
  repeat split; nia.
Qed.
End DriverFurther.


(** ** Locality of the rows *)

Section Locality.
Context {F : Type} `{Float64 F}.
Implicit Types (x w : array2 F) (s : state F).

Lemma py_slice_app_l {A : Type} (a b : Z) (l k : list A) :
  (0 <= a)%Z -> (a <= b)%Z -> (b <= Z.of_nat (length l))%Z ->
  py_slice a b (l ++ k) = py_slice a b l.
Proof.
  intros Ha Hab Hb.
  rewrite !py_slice_in_range by (rewrite ?length_app; lia).
  rewrite drop_app_le by lia. rewrite take_app_le by (rewrite length_drop; lia). done.
Qed.

Lemma py_slice_drop {A : Type} (a b : Z) (d : nat) (l : list A) :
  (0 <= a)%Z -> (a <= b)%Z -> (b + Z.of_nat d <= Z.of_nat (length l))%Z ->
  py_slice a b (drop d l) = py_slice (a + Z.of_nat d) (b + Z.of_nat d) l.
Proof.
  intros Ha Hab Hb.
  rewrite !py_slice_in_range by (rewrite ?length_drop; lia).
  rewrite drop_drop. f_equal; [lia|]. f_equal. lia.
Qed.

(** More samples at the end of the recording leave the rows already computed
    as they are: the feature matrix of a recording is the top of the feature
    matrix of every longer recording that starts with it. *)
Theorem getfTDDfeat_v2_prefix x (more : list (list F)) (steps winsize wininc : Z) :
  let x' := Array2 (ncols x) (rows x ++ more) in
  rect x -> rect x' -> (1 <= wininc)%Z ->
  (0 <= steps <= numwin_of (nrows x) winsize wininc)%Z ->
  (Z.of_nat (ncols x) <= winsize)%Z ->
  exists feat feat',
    getfTDDfeat_v2 (Arr2 x) steps winsize wininc = Ok feat
    /\ getfTDDfeat_v2 (Arr2 x') steps winsize wininc = Ok feat'
    /\ nrows feat <= nrows feat'
    /\ rows feat = take (nrows feat) (rows feat').
Proof.
  intros x' Hx Hx' Hinc Hsteps Hfit.
  assert (Hlen : nrows x' = nrows x + length more)
    by (unfold x', nrows; simpl; by rewrite length_app).
  assert (Hmono : (numwin_of (nrows x) winsize wininc
                   <= numwin_of (nrows x') winsize wininc)%Z).
  { unfold numwin_of. apply Z.add_le_mono_r, Z.div_le_mono; lia. }
  destruct (getfTDDfeat_v2_rows (Arr2 x) steps winsize wininc Hx Hinc)
    as (feat & Hrun & _ & _ & Hrows & Hrow); [simpl; lia|done|].
  destruct (getfTDDfeat_v2_rows (Arr2 x') steps winsize wininc Hx' Hinc)
    as (feat' & Hrun' & _ & _ & Hrows' & Hrow'); [simpl; lia|done|].
  simpl in Hrows, Hrows', Hrow, Hrow'.
  exists feat, feat'. split; [done|]. split; [done|]. split; [lia|].
  apply list_eq. intros i. destruct (decide (i < nrows feat)) as [Hi|Hi].
  - rewrite lookup_take_lt by done. rewrite Hrow by done. rewrite Hrow' by lia.
    f_equal. unfold fused_row.
    pose proof (window_in_range (nrows x) steps winsize wininc i Hinc ltac:(lia)) as Hhi.
    assert (0 <= Z.of_nat i * wininc)%Z by nia.
    assert (Z.of_nat i * wininc <= (Z.of_nat i + steps) * wininc)%Z by nia.
    unfold row_slice, x'. simpl. unfold nrows in Hhi.
    by rewrite !py_slice_app_l by lia.
  - rewrite lookup_take_ge by lia. apply lookup_ge_None. unfold nrows in Hi. lia.
Qed.

(** Dropping the first [k] strides of the recording drops the first [k] rows
    of the feature matrix: row [i] of the result on [x[k*wininc:]] is row
    [i + k] of the result on [x]. *)
Theorem getfTDDfeat_v2_shift x (k : nat) (steps winsize wininc : Z) :
  let d := Z.to_nat (Z.of_nat k * wininc) in
  let x' := Array2 (ncols x) (drop d (rows x)) in
  rect x -> (1 <= wininc)%Z ->
  (1 <= steps)%Z -> (steps + Z.of_nat k <= numwin_of (nrows x) winsize wininc)%Z ->
  (Z.of_nat (ncols x) <= winsize)%Z ->
  exists feat feat',
    getfTDDfeat_v2 (Arr2 x) steps winsize wininc = Ok feat
    /\ getfTDDfeat_v2 (Arr2 x') steps winsize wininc = Ok feat'
    /\ nrows feat = nrows feat' + k
    /\ rows feat' = drop k (rows feat).
Proof.
  intros d x' Hx Hinc Hsteps Hk Hfit.
  assert (Hx' : rect x') by (by apply Forall_drop).
  assert (Hd : Z.of_nat d = (Z.of_nat k * wininc)%Z) by (unfold d; nia).
  assert (Hlen : Z.of_nat (nrows x') = (Z.of_nat (nrows x) - Z.of_nat k * wininc)%Z).
  { unfold x', nrows; simpl. rewrite length_drop.
    destruct (decide (k = 0)) as [->|Hk0]; [lia|].
    pose proof (window_in_range (nrows x) steps winsize wininc (k - 1) Hinc ltac:(lia)).
    assert (Z.of_nat k * wininc <= (Z.of_nat (k - 1) + steps) * wininc)%Z by nia.
    unfold nrows in *. lia. }
  assert (Hnum : numwin_of (nrows x') winsize wininc
                 = (numwin_of (nrows x) winsize wininc - Z.of_nat k)%Z).
  { unfold numwin_of. rewrite Hlen.
    replace (Z.of_nat (nrows x) - Z.of_nat k * wininc - winsize)%Z
      with (Z.of_nat (nrows x) - winsize + (- Z.of_nat k) * wininc)%Z by lia.
    rewrite Z.div_add by lia. lia. }
  destruct (getfTDDfeat_v2_rows (Arr2 x) steps winsize wininc Hx Hinc)
    as (feat & Hrun & _ & _ & Hrows & Hrow); [simpl; lia|done|].
  destruct (getfTDDfeat_v2_rows (Arr2 x') steps winsize wininc Hx' Hinc)
    as (feat' & Hrun' & _ & _ & Hrows' & Hrow'); [simpl; lia|done|].
  simpl in Hrows, Hrows', Hrow, Hrow'. rewrite Hnum in Hrows'.
  exists feat, feat'. split; [done|]. split; [done|]. split; [lia|].
  apply list_eq. intros i. rewrite lookup_drop.
  destruct (decide (i < nrows feat')) as [Hi|Hi].
  - rewrite Hrow' by done. rewrite Hrow by lia. f_equal. unfold fused_row.
    pose proof (window_in_range (nrows x) steps winsize wininc (k + i) Hinc ltac:(lia))
      as Hhi.
    assert (0 <= Z.of_nat i * wininc)%Z by nia.
    assert (Z.of_nat i * wininc <= (Z.of_nat i + steps) * wininc)%Z by nia.
    unfold row_slice, x'. simpl. unfold nrows in Hhi.
    rewrite !py_slice_drop by lia. rewrite Hd. do 2 f_equal; f_equal; lia.
  - rewrite !(proj2 (lookup_ge_None _ _)); [done| |]; unfold nrows in *; lia.
Qed.
End Locality.


(** ** Values: the polarity of the signal *)

Section Polarity.
Import XReal.
Local Open Scope R_scope.
Implicit Types (S a x w : array2 xreal).

Lemma xsub_xneg (u v : xreal) : xsub (xneg u) (xneg v) = xneg (xsub u v).
Proof. destruct u, v; unfold xsub; simpl; try done. f_equal. ring. Qed.

Lemma fsq_xneg (v : xreal) : fsq (xneg v) = fsq v.
Proof. destruct v; unfold fsq; simpl; try done. f_equal. ring. Qed.

Lemma xabs_xneg (v : xreal) : xabs (xneg v) = xabs v.
Proof. destruct v; simpl; try done. by rewrite Rabs_Ropp. Qed.

Lemma xneg_zero : xneg (Fin 0) = Fin 0.
Proof. simpl. by rewrite Ropp_0. Qed.

Lemma amap_amap (f g : xreal -> xreal) a : amap f (amap g a) = amap (f ∘ g) a.
Proof.
  unfold amap; simpl. f_equal. rewrite <- list_fmap_compose.
  apply list_fmap_ext. intros _ r _. simpl. by rewrite <- list_fmap_compose.
Qed.

Lemma amap_ext (f g : xreal -> xreal) a : (forall v, f v = g v) -> amap f a = amap g a.
Proof.
  intros Hfg. unfold amap. f_equal. apply list_fmap_ext. intros _ r _.
  apply list_fmap_ext. intros _ v _. apply Hfg.
Qed.

Lemma shape_negate S : nrows (negate S) = nrows S /\ ncols (negate S) = ncols S.
Proof. unfold negate, amap, nrows; simpl. by rewrite length_fmap. Qed.

Lemma np_transpose_amap (f : xreal -> xreal) S :
  np_transpose (amap f S) = amap f (np_transpose S).
Proof.
  unfold np_transpose, amap, columns, nrows; simpl.
  by rewrite length_fmap, columns_of_map.
Qed.

Lemma orient_negate S : orient (negate S) = negate (orient S).
Proof.
  unfold orient, shape. destruct (shape_negate S) as [-> ->].
  case_decide; [apply np_transpose_amap|done].
Qed.

Lemma fmap_zip_with_xsub (r r' : list xreal) :
  zip_with fsub (xneg <$> r) (xneg <$> r') = xneg <$> zip_with fsub r r'.
Proof.
  rewrite zip_with_fmap_l, zip_with_fmap_r, fmap_zip_with_compose.
  apply zip_with_ext; [|done..]. intros u v. apply xsub_xneg.
Qed.

Lemma np_diff0_negate a : np_diff0 (negate a) = negate (np_diff0 a).
Proof.
  unfold np_diff0, negate, amap, nrows; simpl. f_equal.
  rewrite length_fmap, <- fmap_drop, <- fmap_take.
  rewrite zip_with_fmap_l, zip_with_fmap_r, fmap_zip_with_compose.
  apply zip_with_ext; [|done..]. intros r r'. apply fmap_zip_with_xsub.
Qed.

Lemma deriv_negate (c : nat) a : deriv c (negate a) = negate (deriv c a).
Proof.
  unfold deriv. rewrite np_diff0_negate.
  assert (Hpad : np_concatenate0 (np_zeros 1 c) (negate (np_diff0 a))
                 = negate (np_concatenate0 (np_zeros 1 c) (np_diff0 a))).
  { unfold np_concatenate0, negate, amap, np_zeros. cbn [ncols rows replicate app].
    rewrite fmap_cons, fmap_replicate. xreal_ops. by rewrite xneg_zero. }
  rewrite Hpad. apply np_diff0_negate.
Qed.

Lemma np_sum0_even (g : xreal -> xreal) a :
  (forall v, g (xneg v) = g v) -> np_sum0 (amap g (negate a)) = np_sum0 (amap g a).
Proof.
  intros Hg. unfold negate. rewrite amap_amap. f_equal. apply amap_ext. apply Hg.
Qed.

Lemma KSM1_locals_negate S :
  let L := KSM1_locals S in
  KSM1_locals (negate S)
  = Locals (negate (l_S L)) (l_samples L) (l_channels L) (l_m0 L)
      (negate (l_d1 L)) (negate (l_d2 L)) (l_m2 L) (l_m4 L)
      (l_sparsi L) (l_IRF L) (l_WLR L).
Proof.
  intros L. unfold L, KSM1_locals, shape. rewrite orient_negate.
  destruct (shape_negate (orient S)) as [-> ->]. cbv beta iota zeta.
  cbn [l_S l_samples l_channels l_m0 l_d1 l_d2 l_m2 l_m4 l_sparsi l_IRF l_WLR].
  rewrite !deriv_negate. unfold m0_root, moment_hi.
  rewrite !(np_sum0_even fsq) by apply fsq_xneg.
  rewrite !(np_sum0_even fabs) by apply xabs_xneg. done.
Qed.

Lemma KSM1_of_negate S : KSM1 (negate S) = KSM1 S.
Proof. unfold KSM1. by rewrite KSM1_locals_negate. Qed.

(** [KSM1] does not see the polarity of the signal: the window with every
    sample negated has the same moments, its differences are the negated
    differences, and the output is the same. *)
Theorem KSM1_negate S :
  l_d1 (KSM1_locals (negate S)) = negate (l_d1 (KSM1_locals S))
  /\ l_d2 (KSM1_locals (negate S)) = negate (l_d2 (KSM1_locals S))
  /\ KSM1 (negate S) = KSM1 S.
Proof. rewrite KSM1_locals_negate. split; [done|]. split; [done|]. apply KSM1_of_negate. Qed.
End Polarity.


Section PolarityDriver.
Import XReal.
Local Open Scope R_scope.
Implicit Types (S a x w : array2 xreal) (s : state xreal).

Lemma py_slice_fmap {A B : Type} (f : A -> B) (a b : Z) (l : list A) :
  py_slice a b (f <$> l) = f <$> py_slice a b l.
Proof. unfold py_slice. by rewrite length_fmap, fmap_take, fmap_drop. Qed.

Lemma row_slice_negate (a b : Z) x : row_slice a b (negate x) = negate (row_slice a b x).
Proof. unfold row_slice, negate, amap; simpl. by rewrite py_slice_fmap. Qed.

Lemma nonlinear_negate w : nonlinear (negate w) = nonlinear w.
Proof.
  unfold nonlinear, negate. rewrite amap_amap. apply amap_ext. intros v.
  unfold compose. by rewrite fsq_xneg.
Qed.

Lemma body_negate x (steps wininc : Z) (i : nat) s :
  body (negate x) steps wininc i s = body x steps wininc i s.
Proof.
  unfold body. by rewrite !row_slice_negate, !nonlinear_negate, !KSM1_of_negate.
Qed.

Lemma for_each_ext (f g : nat -> state xreal -> result (state xreal)) (idx : list nat) s :
  (forall i s', f i s' = g i s') -> for_each f idx s = for_each g idx s.
Proof.
  intros Hfg. revert s. induction idx as [|i idx IH]; intros s; simpl; [done|].
  rewrite Hfg. destruct (g i s) as [s'|e]; simpl; [apply IH|done].
Qed.

Lemma as_columns_negate (x : ndarray xreal) :
  as_columns (negate_input x) = negate (as_columns x).
Proof.
  destruct x as [v|m]; simpl; [|done].
  unfold newaxis, negate, amap; simpl. f_equal. by rewrite <- !list_fmap_compose.
Qed.

(** The features do not depend on the polarity of the recording: negating
    every sample of the input changes neither the matrix returned nor the
    exception raised. *)
Theorem getfTDDfeat_v2_negate (x : ndarray xreal) (steps winsize wininc : Z) :
  getfTDDfeat_v2 (negate_input x) steps winsize wininc
  = getfTDDfeat_v2 x steps winsize wininc.
Proof.
  unfold getfTDDfeat_v2. rewrite as_columns_negate.
  destruct (shape_negate (as_columns x)) as [-> ->].
  repeat case_decide; try done.
  rewrite (for_each_ext _ (body (as_columns x) steps wininc)); [done|].
  intros i s'. apply body_negate.
Qed.
End PolarityDriver.


(** ** Values: a channel without signal *)

Section Entries.
Context {F : Type} `{Float64 F}.

(** The entry of [KSM1] for the quantity [k] of the channel [j]. *)
Lemma KSM1_entry (S : array2 F) (j k : nat) (col : list F) (q : list F -> F) :
  rect S -> ncols S <= nrows S ->
  columns S !! j = Some col -> chan_quantities !! k = Some q ->
  KSM1 S !! (k * ncols S + j) = Some (logabs (q col)).
Proof.
  intros HS Hle Hcol Hq.
  pose proof (KSM1_columns S HS) as Hstack. rewrite (orient_tall S Hle) in Hstack.
  rewrite Hstack, list_lookup_fmap.
  assert (Hj : j < ncols S).
  { apply lookup_lt_Some in Hcol. by rewrite length_columns in Hcol. }
  assert (Hjoin : mjoin ((fun q => q <$> columns S) <$> chan_quantities)
                    !! (k * ncols S + j) = Some (q col)).
  { apply (join_lookup_Some_same_length' (ncols S)); [|done|].
    - apply Forall_fmap, Forall_true. intros q'. simpl.
      by rewrite length_fmap, length_columns.
    - exists (q <$> columns S). rewrite list_lookup_fmap, Hq. split; [done|].
      by rewrite list_lookup_fmap, Hcol. }
  by rewrite Hjoin.
Qed.

Lemma chan_diff_replicate (n : nat) (v : F) :
  chan_diff (replicate n v) = replicate (n - 1) (fsub v v).
Proof.
  unfold chan_diff. rewrite length_replicate, drop_replicate, take_replicate.
  replace ((n - 1) `min` n) with (n - 1) by lia. apply zip_with_replicate.
Qed.
End Entries.

Section DeadChannel.
Import XReal.
Local Open Scope R_scope.

Lemma chan_deriv_constant (m : nat) (c : R) :
  chan_deriv (replicate (Datatypes.S m) (Fin c)) = replicate m (Fin 0).
Proof.
  unfold chan_deriv. rewrite chan_diff_replicate. xreal_ops. rewrite xsub_diag.
  replace (Datatypes.S m - 1)%nat with m by lia.
  change (Fin 0 :: replicate m (Fin 0)) with (replicate (Datatypes.S m) (Fin 0)).
  rewrite chan_diff_replicate. xreal_ops. rewrite xsub_diag.
  by replace (Datatypes.S m - 1)%nat with m by lia.
Qed.

Lemma real_m0_zeros (n : nat) : real_m0 (replicate n 0) = 0.
Proof.
  unfold real_m0, root_sum_sq.
  assert (Hs : foldl (fun a v => a + v * v) 0 (replicate n 0) = 0).
  { induction n as [|n IH]; simpl; [done|]. by replace (0 + 0 * 0) with 0 by ring. }
  rewrite Hs, sqrt_0. unfold pow_tenth. destruct (Req_EM_T 0 0) as [_|]; [|done]. field.
Qed.

Lemma logabs_zero : logabs (Fin 0) = NInf.
Proof. unfold logabs. xreal_ops. simpl xabs. rewrite Rabs_R0. unfold xlog. by rewrite sign_zero. Qed.

Lemma dead_channel_quantities (n : nat) :
  (2 <= n)%nat ->
  let col := replicate n (Fin 0) in
  chan_m0 col = Fin 0 /\ chan_m2 col = Fin 0 /\ chan_m4 col = Fin 0
  /\ chan_sparseness col = NaN /\ chan_IRF col = NaN /\ chan_WLR col = NaN.
Proof.
  intros Hn. cbv zeta.
  assert (H0 : chan_m0 (replicate n (Fin 0)) = Fin 0).
  { by rewrite <- (fmap_replicate Fin), chan_m0_finite, real_m0_zeros. }
  destruct n as [|[|n]]; [lia|lia|].
  set (m := Datatypes.S (Datatypes.S n)) in *.
  assert (Hd1 : chan_deriv (replicate m (Fin 0)) = replicate (Datatypes.S n) (Fin 0))
    by apply chan_deriv_constant.
  assert (Hd2 : chan_deriv (chan_deriv (replicate m (Fin 0))) = replicate n (Fin 0))
    by (rewrite Hd1; apply chan_deriv_constant).
  assert (H2 : chan_m2 (replicate m (Fin 0)) = Fin 0).
  { unfold chan_m2. rewrite Hd1, length_replicate. apply chan_mhi_zeros. lia. }
  assert (H4 : chan_m4 (replicate m (Fin 0)) = Fin 0).
  { unfold chan_m4. rewrite Hd2, length_replicate. apply chan_mhi_zeros. lia. }
  assert (Habs : forall k, chan_sum (fabs <$> replicate k (Fin 0)) = Fin 0).
  { intros k. rewrite fmap_replicate.
    replace (fabs (Fin 0)) with (Fin 0) by (simpl; by rewrite Rabs_R0).
    apply chan_sum_zeros. }
  split; [done|]. split; [done|]. split; [done|]. split; [|split].
  - unfold chan_sparseness. rewrite H0, H2, H4. xreal_ops.
    rewrite xsub_diag. simpl xmul. simpl xabs.
    replace (Rabs (0 * 0)) with 0 by (rewrite Rmult_0_l, Rabs_R0; done).
    rewrite xsqrt_nonneg, sqrt_0 by lra. unfold xdiv. by rewrite sign_zero.
  - unfold chan_IRF. rewrite H0, H2, H4. apply IRF_value.
  - unfold chan_WLR. rewrite Hd2, Hd1, !Habs. apply WLR_value.
Qed.

(** A channel whose samples are all zero, in a window of at least two
    samples, gives no exception: its three moment entries are [-inf] and its
    sparseness, irregularity-factor and waveform-length-ratio entries are
    NaN, whatever the other channels hold. *)
Theorem KSM1_dead_channel (S : array2 xreal) (j : nat) :
  let samples := nrows S in
  let channels := ncols S in
  rect S -> (channels <= samples)%nat -> (2 <= samples)%nat ->
  columns S !! j = Some (replicate samples (Fin 0)) ->
  KSM1 S !! j = Some NInf
  /\ KSM1 S !! (channels + j)%nat = Some NInf
  /\ KSM1 S !! (2 * channels + j)%nat = Some NInf
  /\ KSM1 S !! (3 * channels + j)%nat = Some NaN
  /\ KSM1 S !! (4 * channels + j)%nat = Some NaN
  /\ KSM1 S !! (5 * channels + j)%nat = Some NaN.
Proof.
  intros samples channels HS Hle Hn Hcol.
  destruct (dead_channel_quantities samples Hn) as (H0 & H2 & H4 & Hsp & Hirf & Hwlr).
  pose proof (fun k q => KSM1_entry S j k _ q HS Hle Hcol) as Hent.
  pose proof (Hent 0%nat _ eq_refl) as E0. pose proof (Hent 1%nat _ eq_refl) as E1.
  pose proof (Hent 2%nat _ eq_refl) as E2. pose proof (Hent 3%nat _ eq_refl) as E3.
  pose proof (Hent 4%nat _ eq_refl) as E4. pose proof (Hent 5%nat _ eq_refl) as E5.
  cbv beta in E1, E2. rewrite H0 in E0. rewrite H0, H2 in E1. rewrite H0, H4 in E2.
  rewrite Hsp in E3. rewrite Hirf in E4. rewrite Hwlr in E5.
  xreal_ops. rewrite xsub_diag, logabs_zero in E1, E2. rewrite logabs_zero in E0.
  rewrite logabs_NaN in E3, E4, E5.
  fold channels in E0, E1, E2, E3, E4, E5.
  replace (0 * channels + j)%nat with j in E0 by lia.
  replace (1 * channels + j)%nat with (channels + j)%nat in E1 by lia.
  done.
Qed.
End DeadChannel.


(** ** Values: the sign of the features *)

Section Squares.
Import XReal.
Local Open Scope R_scope.

Lemma fusion_term (b f : R) :
  fsub (fmul (of_int (-2)) (fmul (Fin b) (Fin f)))
    (fadd (fmul (Fin f) (Fin f)) (fmul (Fin b) (Fin b)))
  = Fin (- (b + f) ^ 2).
Proof. xreal_ops. unfold xsub. simpl. f_equal. ring. Qed.

Lemma fused_entry (lagwin curwin : array2 xreal) (j : nat) (b f b2 f2 : R) :
  KSM1 lagwin !! j = Some (Fin b) -> KSM1 (nonlinear lagwin) !! j = Some (Fin f) ->
  KSM1 curwin !! j = Some (Fin b2) -> KSM1 (nonlinear curwin) !! j = Some (Fin f2) ->
  fused lagwin curwin !! j = Some (Fin ((b + f) ^ 2 * (b2 + f2) ^ 2)).
Proof.
  intros Hb Hf Hb2 Hf2. unfold fused, num_of, den_of.
  rewrite !lookup_zip_with, Hb, Hf, Hb2, Hf2. cbn [mbind option_bind].
  rewrite !fusion_term. xreal_ops. simpl. do 2 f_equal. ring.
Qed.

(** No finite feature is negative: [num - den] is [-(ebp + efp)^2], so that
    the entry of a row, where the four moments it is made of are finite, is
    the product of the two squares [(ebp + efp)^2] and [(ebp2 + efp2)^2]
    (in exact arithmetic). *)
Theorem getfTDDfeat_v2_entry_square (x : array2 xreal) (steps winsize wininc : Z)
    (i j : nat) (b f b2 f2 : R) :
  let numwin := numwin_of (nrows x) winsize wininc in
  let lagwin := row_slice (Z.of_nat i * wininc) (Z.of_nat i * wininc + winsize) x in
  let curwin :=
    row_slice ((Z.of_nat i + steps) * wininc) ((Z.of_nat i + steps) * wininc + winsize) x in
  rect x -> (1 <= wininc)%Z -> (0 <= steps)%Z -> (Z.of_nat i < numwin - steps)%Z ->
  (Z.of_nat (ncols x) <= winsize)%Z ->
  KSM1 lagwin !! j = Some (Fin b) -> KSM1 (nonlinear lagwin) !! j = Some (Fin f) ->
  KSM1 curwin !! j = Some (Fin b2) -> KSM1 (nonlinear curwin) !! j = Some (Fin f2) ->
  exists feat row,
    getfTDDfeat_v2 (Arr2 x) steps winsize wininc = Ok feat
    /\ rows feat !! i = Some row
    /\ row !! j = Some (Fin ((b + f) ^ 2 * (b2 + f2) ^ 2))
    /\ 0 <= (b + f) ^ 2 * (b2 + f2) ^ 2.
Proof.
  intros numwin lagwin curwin Hx Hinc Hsteps Hi Hfit Hb Hf Hb2 Hf2.
  destruct (getfTDDfeat_v2_rows (Arr2 x) steps winsize wininc Hx Hinc)
    as (feat & Hrun & _ & _ & Hrows & Hrow); [simpl; fold numwin; lia|done|].
  simpl in Hrows, Hrow. fold numwin in Hrows.
  exists feat, (fused_row x steps winsize wininc i).
  split; [done|]. split; [apply Hrow; lia|]. split; [by apply fused_entry|].
  apply Rmult_le_pos; apply pow2_ge_0.
Qed.
End Squares.


(** ** Values: the amplitude of the signal *)

Section Amplitude.
Import XReal.
Local Open Scope R_scope.

Lemma chan_diff_finite (col : list R) : chan_diff (Fin <$> col) = Fin <$> rdiff col.
Proof.
  unfold chan_diff, rdiff. rewrite length_fmap, <- fmap_drop, <- fmap_take.
  rewrite zip_with_fmap_l, zip_with_fmap_r, fmap_zip_with_compose. done.
Qed.

Lemma chan_deriv_finite (col : list R) : chan_deriv (Fin <$> col) = Fin <$> rderiv col.
Proof.
  unfold chan_deriv, rderiv. rewrite chan_diff_finite. xreal_ops.
  change (Fin 0 :: (Fin <$> rdiff col)) with (Fin <$> (0 :: rdiff col)).
  apply chan_diff_finite.
Qed.

Lemma rdiff_scale (k : R) (col : list R) : rdiff (Rmult k <$> col) = Rmult k <$> rdiff col.
Proof.
  unfold rdiff. rewrite length_fmap, <- fmap_drop, <- fmap_take.
  rewrite zip_with_fmap_l, zip_with_fmap_r, fmap_zip_with_compose.
  apply zip_with_ext; [|done..]. intros u v. ring.
Qed.

Lemma rderiv_scale (k : R) (col : list R) :
  rderiv (Rmult k <$> col) = Rmult k <$> rderiv col.
Proof.
  unfold rderiv. rewrite rdiff_scale.
  replace (0 :: (Rmult k <$> rdiff col)) with (Rmult k <$> (0 :: rdiff col))
    by (rewrite fmap_cons; f_equal; ring).
  apply rdiff_scale.
Qed.

Lemma length_rdiff (col : list R) : length (rdiff col) = (length col - 1)%nat.
Proof. unfold rdiff. rewrite length_zip_with, length_drop, length_take. lia. Qed.

Lemma chan_mhi_finite (n : nat) (d : list R) :
  (2 <= n)%nat -> chan_mhi n (Fin <$> d) = Fin (real_mhi n d).
Proof.
  intros Hn. unfold chan_mhi, chan_sum, real_mhi. xreal_ops. rewrite sum_sq_finite.
  assert (Hpos : 0 < IZR (Z.of_nat n - 1)) by (apply IZR_lt; lia).
  pose proof (sum_sq_nonneg d 0 ltac:(lra)) as Hs.
  unfold xdiv. rewrite (sign_pos _ Hpos).
  rewrite xsqrt_nonneg
    by (apply Rmult_le_pos; [lra|apply Rlt_le, Rinv_0_lt_compat; lra]).
  apply chan_norm_finite, sqrt_pos.
Qed.

Lemma real_mhi_scale (n : nat) (k : R) (d : list R) :
  0 < k -> (2 <= n)%nat ->
  real_mhi n (Rmult k <$> d) = Rpower k (1 / 10) * real_mhi n d.
Proof.
  intros Hk Hn. unfold real_mhi.
  assert (Hpos : 0 < IZR (Z.of_nat n - 1)) by (apply IZR_lt; lia).
  pose proof (sum_sq_nonneg d 0 ltac:(lra)) as Hs.
  replace 0 with (k * k * 0) at 1 by ring. rewrite sum_sq_scale.
  replace (k * k * foldl (fun a v => a + v * v) 0 d / IZR (Z.of_nat n - 1))
    with (k * k * (foldl (fun a v => a + v * v) 0 d / IZR (Z.of_nat n - 1)))
    by (field; lra).
  rewrite sqrt_mult_alt by nra. rewrite sqrt_square by lra.
  rewrite pow_tenth_scale by (done || apply sqrt_pos). field.
Qed.

Lemma abs_sum_finite (d : list R) (a : R) :
  foldl xadd (Fin a) (fabs <$> (Fin <$> d)) = Fin (foldl (fun a v => a + Rabs v) a d).
Proof. revert a. induction d as [|v d IH]; intros a; simpl; [done|]. apply IH. Qed.

Lemma sum_abs_scale (k : R) (d : list R) (a : R) :
  0 < k ->
  foldl (fun a v => a + Rabs v) (k * a) (Rmult k <$> d)
  = k * foldl (fun a v => a + Rabs v) a d.
Proof.
  intros Hk. revert a. induction d as [|v d IH]; intros a; simpl; [done|].
  rewrite <- IH. f_equal. rewrite Rabs_mult, (Rabs_right k) by lra. ring.
Qed.

Lemma sign_scale (K a : R) : 0 < K -> sign (K * a) = sign a.
Proof.
  intros HK. unfold sign.
  destruct (total_order_T a 0) as [[Hlt|Heq]|Hgt];
    destruct (total_order_T (K * a) 0) as [[Hlt'|Heq']|Hgt']; try done; nra.
Qed.

Lemma xsqrt_scale (K X : R) :
  0 < K -> xsqrt (Fin (K * K * X)) = xmul (Fin K) (xsqrt (Fin X)).
Proof.
  intros HK. unfold xsqrt. rewrite (sign_scale (K * K) X) by nra.
  assert (Hroot : sqrt (K * K * X) = K * sqrt X).
  { rewrite sqrt_mult_alt by nra. by rewrite sqrt_square by lra. }
  destruct (sign X); simpl; by rewrite ?Hroot.
Qed.

Lemma xdiv_scale (K a : R) (y : xreal) :
  0 < K -> xdiv (Fin (K * a)) (xmul (Fin K) y) = xdiv (Fin a) y.
Proof.
  intros HK. destruct y as [d| | |]; simpl; try done.
  - rewrite !sign_scale by done. destruct (sign d) eqn:Hd; try done.
    + f_equal. field. split; [|lra]. intros ->. by rewrite sign_zero in Hd.
    + f_equal. field. split; [|lra]. intros ->. by rewrite sign_zero in Hd.
  - by rewrite (sign_pos K).
  - by rewrite (sign_pos K).
Qed.

Lemma logabs_scale (K a : R) :
  0 < K -> logabs (Fin (K * a)) = xadd (Fin (ln K)) (logabs (Fin a)).
Proof.
  intros HK. unfold logabs. xreal_ops. simpl xabs.
  rewrite Rabs_mult, (Rabs_right K) by lra. unfold xlog. rewrite sign_scale by done.
  destruct (Req_dec a 0) as [->|Ha].
  - by rewrite Rabs_R0, sign_zero.
  - pose proof (Rabs_pos_lt a Ha) as Hpos. rewrite sign_pos by done. simpl.
    by rewrite ln_mult by lra.
Qed.
End Amplitude.


Section AmplitudeLaw.
Import XReal.
Local Open Scope R_scope.

Lemma abs_sum_chan (d : list R) : chan_sum (fabs <$> (Fin <$> d)) = Fin (sum_abs d).
Proof. unfold chan_sum, sum_abs. xreal_ops. apply abs_sum_finite. Qed.

Lemma sum_abs_scaled (k : R) (d : list R) :
  0 < k -> sum_abs (Rmult k <$> d) = k * sum_abs d.
Proof.
  intros Hk. unfold sum_abs. replace 0 with (k * 0) at 1 by ring.
  by apply sum_abs_scale.
Qed.

(** The six quantities of a channel of finite samples, as real numbers. *)
Lemma channel_quantities_finite (col : list R) :
  (2 <= length col)%nat ->
  let n := length col in
  let A := real_m0 col in
  let B := real_mhi n (rderiv col) in
  let C := real_mhi n (rderiv (rderiv col)) in
  chan_m0 (Fin <$> col) = Fin A
  /\ chan_m2 (Fin <$> col) = Fin B
  /\ chan_m4 (Fin <$> col) = Fin C
  /\ chan_sparseness (Fin <$> col)
     = xdiv (Fin A) (xsqrt (Fin (Rabs ((A - B) * (A - C)))))
  /\ chan_IRF (Fin <$> col) = xdiv (Fin B) (xsqrt (Fin (A * C)))
  /\ chan_WLR (Fin <$> col)
     = xdiv (Fin (sum_abs (rderiv col))) (Fin (sum_abs (rderiv (rderiv col)))).
Proof.
  intros Hn n A B C.
  assert (H0 : chan_m0 (Fin <$> col) = Fin A) by apply chan_m0_finite.
  assert (H2 : chan_m2 (Fin <$> col) = Fin B).
  { unfold chan_m2. rewrite chan_deriv_finite, length_fmap. by apply chan_mhi_finite. }
  assert (H4 : chan_m4 (Fin <$> col) = Fin C).
  { unfold chan_m4. rewrite !chan_deriv_finite, length_fmap. by apply chan_mhi_finite. }
  split; [done|]. split; [done|]. split; [done|]. split; [|split].
  - unfold chan_sparseness. rewrite H0, H2, H4. by xreal_ops.
  - unfold chan_IRF. rewrite H0, H2, H4. by xreal_ops.
  - unfold chan_WLR. rewrite !chan_deriv_finite, !abs_sum_chan. by xreal_ops.
Qed.

(** The quantities of the channel [k * col], for [k > 0]. *)
Lemma channel_quantities_scaled (k : R) (col : list R) :
  0 < k -> (2 <= length col)%nat ->
  let shift := Fin (ln k / 10) in
  let col' := Fin <$> (Rmult k <$> col) in
  logabs (chan_m0 col') = xadd shift (logabs (chan_m0 (Fin <$> col)))
  /\ logabs (fsub (chan_m0 col') (chan_m2 col'))
     = xadd shift (logabs (fsub (chan_m0 (Fin <$> col)) (chan_m2 (Fin <$> col))))
  /\ logabs (fsub (chan_m0 col') (chan_m4 col'))
     = xadd shift (logabs (fsub (chan_m0 (Fin <$> col)) (chan_m4 (Fin <$> col))))
  /\ chan_sparseness col' = chan_sparseness (Fin <$> col)
  /\ chan_IRF col' = chan_IRF (Fin <$> col)
  /\ chan_WLR col' = chan_WLR (Fin <$> col).
Proof.
  intros Hk Hn shift col'. unfold col'.
  set (K := Rpower k (1 / 10)).
  assert (HK : 0 < K) by apply exp_pos.
  assert (Hshift : shift = Fin (ln K)).
  { unfold shift, K. rewrite ln_Rpower. f_equal. field. }
  destruct (channel_quantities_finite col Hn) as (H0 & H2 & H4 & Hsp & Hirf & Hwlr).
  destruct (channel_quantities_finite (Rmult k <$> col) ltac:(by rewrite length_fmap))
    as (H0' & H2' & H4' & Hsp' & Hirf' & Hwlr').
  rewrite length_fmap, !rderiv_scale in *.
  rewrite !real_mhi_scale, !real_m0_scale, !sum_abs_scaled in * by done.
  fold K in H0', H2', H4', Hsp', Hirf', Hwlr'.
  set (A := real_m0 col) in *.
  set (B := real_mhi (length col) (rderiv col)) in *.
  set (C := real_mhi (length col) (rderiv (rderiv col))) in *.
  rewrite H0', H2', H4', Hsp', Hirf', Hwlr', H0, H2, H4, Hsp, Hirf, Hwlr, Hshift.
  xreal_ops. unfold xsub. simpl xneg. simpl xadd at 2 3 5 6.
  split; [by apply logabs_scale|]. split; [|split; [|split; [|split]]].
  - replace (K * A + - (K * B)) with (K * (A + - B)) by ring. by apply logabs_scale.
  - replace (K * A + - (K * C)) with (K * (A + - C)) by ring. by apply logabs_scale.
  - replace (Rabs ((K * A - K * B) * (K * A - K * C)))
      with (K * K * Rabs ((A - B) * (A - C))).
    2:{ replace ((K * A - K * B) * (K * A - K * C)) with (K * K * ((A - B) * (A - C)))
          by ring.
        rewrite (Rabs_mult (K * K)), (Rabs_right (K * K)) by nra. done. }
    rewrite xsqrt_scale by done. by apply xdiv_scale.
  - replace (K * A * (K * C)) with (K * K * (A * C)) by ring.
    rewrite xsqrt_scale by done. by apply xdiv_scale.
  - change (Fin (k * sum_abs (rderiv (rderiv col))))
      with (xmul (Fin k) (Fin (sum_abs (rderiv (rderiv col))))).
    by apply xdiv_scale.
Qed.
End AmplitudeLaw.


Section AmplitudeTheorem.
Import XReal.
Local Open Scope R_scope.

Lemma width_of_finite_array (c : nat) (rs : list (list R)) :
  rect (finite_array c rs) -> width c rs.
Proof.
  intros HS. unfold rect, width in HS; simpl in HS. apply Forall_fmap in HS.
  eapply Forall_impl; [exact HS|]. intros r Hr; simpl in Hr. by rewrite length_fmap in Hr.
Qed.

(** The amplitude of the signal moves the first three entries of each channel
    and leaves the last three alone: on a window of finite samples with
    [samples >= channels] and [samples >= 2], multiplying every sample by
    [k > 0] adds [0.1 * ln k] to the entries of m0, m0-m2 and m0-m4, and does
    not change the entries of the sparseness, the irregularity factor and the
    waveform-length ratio (in exact arithmetic). *)
Theorem KSM1_scaling (k : R) (c : nat) (rs : list (list R)) (j : nat) :
  let S := finite_array c rs in
  0 < k -> rect S -> (ncols S <= nrows S)%nat -> (2 <= nrows S)%nat -> (j < c)%nat ->
  (forall m : nat, (m < 3)%nat ->
     KSM1 (scale (Fin k) S) !! (m * c + j)%nat
     = fadd (Fin (ln k / 10)) <$> KSM1 S !! (m * c + j)%nat)
  /\ (forall m : nat, (3 <= m < 6)%nat ->
        KSM1 (scale (Fin k) S) !! (m * c + j)%nat = KSM1 S !! (m * c + j)%nat).
Proof.
  intros S Hk HS Hle Hn Hj.
  pose proof (width_of_finite_array c rs HS) as Hrs.
  assert (Hlen : nrows S = length rs) by (unfold S, nrows; simpl; by rewrite length_fmap).
  destruct (lookup_lt_is_Some_2 (columns_of c rs) j) as [col Hcol];
    [by rewrite length_columns_of|].
  assert (Hcl : (2 <= length col)%nat).
  { pose proof (Forall_lookup_1 _ _ _ _ (width_columns_of c rs Hrs) Hcol) as Hl.
    simpl in Hl. lia. }
  assert (HcS : columns S !! j = Some (Fin <$> col)).
  { unfold S. by rewrite columns_finite_array, list_lookup_fmap, Hcol. }
  assert (HS' : rect (scale (Fin k) S)) by (by apply rect_amap).
  assert (Hsh : nrows (scale (Fin k) S) = nrows S /\ ncols (scale (Fin k) S) = c).
  { unfold scale, amap, nrows; simpl. by rewrite length_fmap. }
  destruct Hsh as [Hnr Hnc].
  assert (HcS' : columns (scale (Fin k) S) !! j = Some (Fin <$> (Rmult k <$> col))).
  { unfold S. rewrite scale_finite_array, columns_finite_array, columns_of_map.
    by rewrite !list_lookup_fmap, Hcol. }
  pose proof (fun m q => KSM1_entry S j m _ q HS Hle HcS) as E.
  pose proof (fun m q => KSM1_entry (scale (Fin k) S) j m _ q HS'
                           ltac:(rewrite Hnr, Hnc; exact Hle) HcS') as E'.
  rewrite Hnc in E'. change (ncols S) with c in E.
  destruct (channel_quantities_scaled k col Hk Hcl) as (Q0 & Q1 & Q2 & Q3 & Q4 & Q5).
  split.
  - intros m Hm. destruct m as [|[|[|m]]]; [| | |lia].
    + rewrite (E' 0%nat _ eq_refl), (E 0%nat _ eq_refl). cbv beta. by rewrite Q0.
    + rewrite (E' 1%nat _ eq_refl), (E 1%nat _ eq_refl). cbv beta. by rewrite Q1.
    + rewrite (E' 2%nat _ eq_refl), (E 2%nat _ eq_refl). cbv beta. by rewrite Q2.
  - intros m Hm. destruct m as [|[|[|[|[|[|m]]]]]]; [lia|lia|lia| | | |lia].
    + rewrite (E' 3%nat _ eq_refl), (E 3%nat _ eq_refl). by rewrite Q3.
    + rewrite (E' 4%nat _ eq_refl), (E 4%nat _ eq_refl). by rewrite Q4.
    + rewrite (E' 5%nat _ eq_refl), (E 5%nat _ eq_refl). by rewrite Q5.
Qed.
End AmplitudeTheorem.


(** ** The further properties on concrete inputs *)

Section FurtherExamples.
Import XReal.
Local Open Scope R_scope.

Lemma length_example :
  let S := finite_array 3 [[1; 2; 3]; [4; 5; 6]] in
  length (KSM1 S) = (6 * 2)%nat.
Proof. intros S. apply (KSM1_length S). subst S. evaluated. Defined.

Lemma wide_example :
  let S := finite_array 3 [[1; 2; 3]; [4; 5; 6]] in
  KSM1 S !! 8%nat = Some (logabs (chan_IRF [Fin 1; Fin 2; Fin 3])).
Proof.
  intros S. destruct (KSM1_wide S) as [Hstack _]; [subst S; evaluated..|].
  rewrite Hstack. reflexivity.
Defined.

Lemma d1_rows_example :
  let S := finite_array 1 [[1]; [2]; [4]] in
  rows (l_d1 (KSM1_locals S)) !! 0%nat
  = Some (zip_with fsub (zip_with fsub [Fin 2] [Fin 1]) (replicate 1 (of_int 0))).
Proof.
  intros S. destruct (KSM1_d1_rows S [Fin 1] [Fin 2]) as [H0 _];
    [subst S; first [evaluated | reflexivity]..|].
  exact H0.
Defined.

Lemma returns_iff_example :
  let x := finite_array 1 [[1]; [2]; [3]; [4]] in
  exists feat, getfTDDfeat_v2 (Arr2 x) 1 2 1 = Ok feat.
Proof.
  intros x. destruct (getfTDDfeat_v2_returns_iff x 1 2 1) as [Hok _];
    [subst x; evaluated..|].
  apply Hok. subst x. evaluated.
Defined.


Lemma numwin_example :
  (numwin_of 20 10 2 = 6)%Z
  /\ ((numwin_of 20 10 2 - 1) * 2 + 10 <= 20 < numwin_of 20 10 2 * 2 + 10)%Z.
Proof.
  destruct (numwin_of_maximal 20 10 2) as (H1 & H2 & H3); [evaluated..|].
  split; [reflexivity|]. split; [exact H2|exact H3].
Defined.

Lemma prefix_example :
  let x := finite_array 1 [[1]; [2]; [3]; [4]] in
  let x' := Array2 1 (rows x ++ [[Fin 5]]) in
  exists feat feat',
    getfTDDfeat_v2 (Arr2 x) 1 2 1 = Ok feat
    /\ getfTDDfeat_v2 (Arr2 x') 1 2 1 = Ok feat'
    /\ rows feat = take (nrows feat) (rows feat').
Proof.
  intros x x'.
  destruct (getfTDDfeat_v2_prefix x [[Fin 5]] 1 2 1) as (feat & feat' & H1 & H2 & _ & H3);
    [subst x; evaluated..|].
  exists feat, feat'. split; [exact H1|]. split; [exact H2|exact H3].
Defined.

Lemma shift_example :
  let x := finite_array 1 [[1]; [2]; [3]; [4]; [5]] in
  let x' := Array2 1 (drop 1 (rows x)) in
  exists feat feat',
    getfTDDfeat_v2 (Arr2 x) 1 2 1 = Ok feat
    /\ getfTDDfeat_v2 (Arr2 x') 1 2 1 = Ok feat'
    /\ rows feat' = drop 1 (rows feat).
Proof.
  intros x x'.
  destruct (getfTDDfeat_v2_shift x 1 1 2 1) as (feat & feat' & H1 & H2 & _ & H3);
    [subst x; evaluated..|].
  exists feat, feat'. split; [exact H1|]. split; [exact H2|exact H3].
Defined.

Lemma dead_channel_example :
  let S := finite_array 2 [[0; 1]; [0; 3]; [0; 2]] in
  KSM1 S !! 0%nat = Some NInf /\ KSM1 S !! 6%nat = Some NaN.
Proof.
  intros S.
  destruct (KSM1_dead_channel S 0) as (H0 & _ & _ & H3 & _);
    [subst S; first [evaluated | reflexivity]..|].
  split; [exact H0|exact H3].
Defined.

Lemma scaling_entries_example :
  let S := finite_array 1 [[3]; [4]] in
  KSM1 (scale (Fin 2) S) !! 0%nat = fadd (Fin (ln 2 / 10)) <$> KSM1 S !! 0%nat
  /\ KSM1 (scale (Fin 2) S) !! 5%nat = KSM1 S !! 5%nat.
Proof.
  intros S.
  destruct (KSM1_scaling 2 1 [[3]; [4]] 0) as [Hlow Hhigh]; [evaluated..|].
  split; [exact (Hlow 0%nat ltac:(lia))|exact (Hhigh 5%nat ltac:(lia))].
Defined.
End FurtherExamples.


Section SquareExample.
Import XReal.
Local Open Scope R_scope.

Lemma nonlinear_constant_window (n : nat) (c : R) :
  nonlinear (constant_window n c)
  = constant_window n (ln (c * c + / 2 ^ 52) * ln (c * c + / 2 ^ 52)).
Proof.
  unfold nonlinear, amap, constant_window. cbn [ncols rows]. f_equal.
  rewrite fmap_replicate. f_equal. cbn [fmap list_fmap]. f_equal.
  unfold fsq. xreal_ops. simpl xmul at 2. simpl xadd. unfold xlog.
  assert (Hpos : 0 < c * c + / 2 ^ 52).
  { apply Rplus_le_lt_0_compat; [nra|]. apply Rinv_0_lt_compat, pow_lt. lra. }
  by rewrite sign_pos.
Qed.

Lemma ln_one_plus_spacing : ln (1 * 1 + / 2 ^ 52) <> 0.
Proof.
  assert (Heps : 0 < / 2 ^ 52) by (apply Rinv_0_lt_compat, pow_lt; lra).
  assert (ln 1 < ln (1 * 1 + / 2 ^ 52)) by (apply ln_increasing; lra).
  rewrite ln_1 in *. lra.
Qed.

(** Five samples equal to 1, windows of three samples, one step back. *)
Lemma entry_square_example :
  let x := constant_window 5 1 in
  exists feat row v,
    getfTDDfeat_v2 (Arr2 x) 1 3 1 = Ok feat
    /\ rows feat !! 0%nat = Some row
    /\ row !! 0%nat = Some (Fin v)
    /\ 0 <= v.
Proof.
  intros x.
  set (c' := ln (1 * 1 + / 2 ^ 52) * ln (1 * 1 + / 2 ^ 52)).
  assert (Hc' : c' <> 0).
  { unfold c'. pose proof ln_one_plus_spacing. nra. }
  set (b := ln (real_m0 (replicate 3 1))).
  set (f := ln (real_m0 (replicate 3 c'))).
  assert (Hb : KSM1 (constant_window 3 1) !! 0%nat = Some (Fin b)).
  { destruct (KSM1_constant_window 3 1 ltac:(lia) ltac:(lra)) as (_ & ->). reflexivity. }
  assert (Hf : KSM1 (nonlinear (constant_window 3 1)) !! 0%nat = Some (Fin f)).
  { rewrite nonlinear_constant_window. fold c'.
    destruct (KSM1_constant_window 3 c' ltac:(lia) Hc') as (_ & ->). reflexivity. }
  destruct (getfTDDfeat_v2_entry_square x 1 3 1 0 0 b f b f)
    as (feat & row & Hrun & Hrow & Hent & Hpos).
  - apply rect_constant_window.
  - lia.
  - lia.
  - subst x. unfold numwin_of, nrows. cbn [rows constant_window replicate length].
    Z.to_euclidean_division_equations. lia.
  - subst x. cbn [ncols constant_window]. lia.
  - exact Hb.
  - exact Hf.
  - exact Hb.
  - exact Hf.
  - exists feat, row, ((b + f) ^ 2 * (b + f) ^ 2).
    split; [exact Hrun|]. split; [exact Hrow|]. split; [exact Hent|exact Hpos].
Defined.
End SquareExample.
